(** * AI mock interview: the application's state wiring and prompt assembly

    A shallow embedding of [App.tsx], [components/Home.tsx],
    [components/Interview.tsx] and [types.ts], with the properties of the
    request assembly, the screen state and the capture loop proved about it.

    JavaScript strings are sequences of UTF-16 code units; the React
    components are state records, their event handlers are functions on
    those records, and an [async] handler is split at its [await]. *)

From Stdlib Require Import String Ascii NArith QArith DecimalString Lqa.
From stdpp Require Import gmap list sorting.

Local Open Scope nat_scope.
Set Warnings "-register-all".

(** ** The JavaScript values the code works on *)

Module JS.

(** A string is its sequence of UTF-16 code units. *)
Definition jsstring : Type := list N.

(** A source literal (the literals of this program are ASCII). *)
Definition lit (s : string) : jsstring :=
  N_of_ascii <$> list_ascii_of_string s.

#[global] Arguments lit : simpl never.

Definition nl : jsstring := [10%N].
Definition dquote : jsstring := [34%N].
Definition backslash : jsstring := [92%N].

(** [WhiteSpace] and [LineTerminator] of ECMAScript, the code units that
    [String.prototype.trim] strips. *)
Definition is_whitespace (c : N) : bool :=
  ((9 <=? c) && (c <=? 13) || (c =? 32) || (c =? 160) || (c =? 5760)
   || (8192 <=? c) && (c <=? 8202) || (c =? 8232) || (c =? 8233)
   || (c =? 8239) || (c =? 8287) || (c =? 12288) || (c =? 65279))%N.

Fixpoint trimStart (s : jsstring) : jsstring :=
  match s with
  | c :: s' => if is_whitespace c then trimStart s' else s
  | [] => []
  end.

Definition trimEnd (s : jsstring) : jsstring := rev (trimStart (rev s)).

Definition trim (s : jsstring) : jsstring := trimEnd (trimStart s).

(** [String(n)] for a non-negative integer: its decimal digits. *)
Definition number_to_string (n : nat) : jsstring :=
  lit (NilEmpty.string_of_uint (Nat.to_uint n)).

(** [a || b] on strings: the empty string and [undefined] are falsy. *)
Definition or_else (a : option jsstring) (b : jsstring) : jsstring :=
  match a with
  | Some (c :: s) => c :: s
  | Some [] | None => b
  end.

(** An array that may have holes: [None] is a hole, read as [undefined]. *)
Abbreviation array A := (list (option A)).

(** [a[i]]: [undefined] at a hole and past the end. *)
Definition array_get {A} (a : array A) (i : nat) : option A :=
  mjoin (a !! i).

(** [a[i] = v]: past the end the array grows, leaving holes. *)
Definition array_set {A} (a : array A) (i : nat) (v : A) : array A :=
  if decide (i < length a) then <[i := Some v]> a
  else a ++ replicate (i - length a) None ++ [Some v].

(** An object whose keys are question indices, [{ [key: number]: V }], is
    a finite map [gmap nat V].  Its own properties are enumerated in
    ascending order of the integer key. *)
Definition key_le {V} (a b : nat * V) : Prop := a.1 ≤ b.1.

#[global] Instance key_le_dec {V} (a b : nat * V) : Decision (key_le a b).
Proof. unfold key_le. apply _. Defined.

Definition Object_entries {V} (o : gmap nat V) : list (nat * V) :=
  merge_sort key_le (map_to_list o).

Definition Object_values {V} (o : gmap nat V) : list V :=
  (Object_entries o).*2.

(** [Array.prototype.some]. *)
Definition some {A} (p : A → bool) (l : list A) : bool := existsb p l.

(** [o[k].push(v)] after [if (!o[k]) o[k] = []]. *)
Definition push_at {V} (o : gmap nat (list V)) (k : nat) (v : V)
  : gmap nat (list V) :=
  <[k := default [] (o !! k) ++ [v]]> o.

(** [JSON.stringify(o, null, 2)] for an object of string arrays keyed by
    question index.  [QuoteJSONString]: the short escapes, a [\uXXXX] escape
    for the other control characters and for a lone surrogate, everything
    else as it is. *)
Definition hex_digit (d : N) : N :=
  (if d <? 10 then 48 + d else 87 + d)%N.

Definition unicode_escape (c : N) : jsstring :=
  backslash ++ lit "u"
  ++ [hex_digit (c / 4096 mod 16); hex_digit (c / 256 mod 16);
      hex_digit (c / 16 mod 16); hex_digit (c mod 16)]%N.

Definition is_high_surrogate (c : N) : bool := ((55296 <=? c) && (c <=? 56319))%N.
Definition is_low_surrogate (c : N) : bool := ((56320 <=? c) && (c <=? 57343))%N.

Definition escape_unit (c : N) : jsstring :=
  (if c =? 8 then backslash ++ lit "b"
   else if c =? 9 then backslash ++ lit "t"
   else if c =? 10 then backslash ++ lit "n"
   else if c =? 12 then backslash ++ lit "f"
   else if c =? 13 then backslash ++ lit "r"
   else if c =? 34 then backslash ++ dquote
   else if c =? 92 then backslash ++ backslash
   else if (c <? 32) || is_low_surrogate c then unicode_escape c
   else [c])%N.

Fixpoint quote_body (s : jsstring) : jsstring :=
  match s with
  | [] => []
  | c :: s' =>
      if is_high_surrogate c then
        match s' with
        | d :: s'' =>
            if is_low_surrogate d then c :: d :: quote_body s''
            else unicode_escape c ++ quote_body s'
        | [] => unicode_escape c
        end
      else escape_unit c ++ quote_body s'
  end.

Definition quote (s : jsstring) : jsstring := dquote ++ quote_body s ++ dquote.

(** [Array.prototype.join]. *)
Fixpoint join (sep : jsstring) (l : list jsstring) : jsstring :=
  match l with
  | [] => []
  | [x] => x
  | x :: l' => x ++ sep ++ join sep l'
  end.

Definition stringify_array (indent : jsstring) (a : list jsstring) : jsstring :=
  match a with
  | [] => lit "[]"
  | _ =>
      lit "[" ++ nl
      ++ join (lit "," ++ nl) ((λ x, indent ++ lit "  " ++ quote x) <$> a)
      ++ nl ++ indent ++ lit "]"
  end.

Definition JSON_stringify (o : gmap nat (list jsstring)) : jsstring :=
  match Object_entries o with
  | [] => lit "{}"
  | entries =>
      lit "{" ++ nl
      ++ join (lit "," ++ nl)
           ((λ kv, lit "  " ++ quote (number_to_string kv.1) ++ lit ": "
                   ++ stringify_array (lit "  ") kv.2) <$> entries)
      ++ nl ++ lit "}"
  end.

(** A value returned by [JSON.parse]; a number is a finite one, and each
    property of an object is listed once. *)
Inductive JSON : Type :=
  | JNull
  | JBool (b : bool)
  | JNumber (n : Q)
  | JString (s : jsstring)
  | JArray (elements : list JSON)
  | JObject (properties : list (jsstring * JSON)).

(** [!!v]: [null], [false], [0] and the empty string are falsy. *)
Definition truthy (v : JSON) : bool :=
  match v with
  | JNull => false
  | JBool b => b
  | JNumber n => negb (Qeq_bool n 0)
  | JString s => negb (bool_decide (s = []))
  | JArray _ | JObject _ => true
  end.

Fixpoint own_property (key : jsstring) (properties : list (jsstring * JSON))
  : option JSON :=
  match properties with
  | [] => None
  | (k, v) :: properties' =>
      if decide (k = key) then Some v else own_property key properties'
  end.

(** What reading a property gives: a [TypeError], [undefined], or a value. *)
Inductive Read : Type :=
  | Throws
  | Undefined
  | Value (v : JSON).

(** [v.key] for a key that is neither [length] nor an index: reading a
    property of [null] throws, only an object has such a property. *)
Definition get (v : JSON) (key : jsstring) : Read :=
  match v with
  | JNull => Throws
  | JObject properties =>
      match own_property key properties with
      | Some x => Value x
      | None => Undefined
      end
  | JBool _ | JNumber _ | JString _ | JArray _ => Undefined
  end.

(** [v.length === 0] for a [v] that is not [null]: the length of an array or
    of a string, the [length] property of an object, [undefined] on a
    boolean or a number. *)
Definition length_is_zero (v : JSON) : bool :=
  match v with
  | JArray elements => bool_decide (elements = [])
  | JString s => bool_decide (s = [])
  | JObject properties =>
      match own_property (lit "length") properties with
      | Some (JNumber n) => Qeq_bool n 0
      | _ => false
      end
  | JNull | JBool _ | JNumber _ => false
  end.

(** The strings of a value that is an array of strings. *)
Definition string_array (v : JSON) : option (list jsstring) :=
  match v with
  | JArray elements =>
      mapM (λ x, match x with JString s => Some s | _ => None end) elements
  | _ => None
  end.

End JS.

Import JS.

(** ** [types.ts] *)

Inductive AppState : Type := HOME | INTERVIEW | REPORT | LOADING.

Record InterviewConfig : Type := {
  role : jsstring;
  difficulty : jsstring;
}.

Record EvaluationCriterion : Type := {
  name : jsstring;
  score : Q;
  maxScore : Q;
  reasoning : jsstring;
}.

Record EvaluationResult : Type := {
  overallScore : Q;
  criteria : list EvaluationCriterion;
  strengths : list jsstring;
  weaknesses : list jsstring;
  improvements : list jsstring;
  bodyLanguageFeedback : jsstring;
}.

(** [InterviewSession].  Its [questions] are declared a [string[]]; what
    [App] stores there is the [questions] property of a parsed response,
    which is any value, so the record is given for both. *)
Record Session (Questions : Type) : Type := {
  config : InterviewConfig;
  questions : Questions;
  answers : array jsstring;
  snapshots : gmap nat (list jsstring);
  malpracticeLogs : option (gmap nat (list jsstring));
  evaluation : option EvaluationResult;
}.

#[global] Arguments config {Questions} _.
#[global] Arguments questions {Questions} _.
#[global] Arguments answers {Questions} _.
#[global] Arguments snapshots {Questions} _.
#[global] Arguments malpracticeLogs {Questions} _.
#[global] Arguments evaluation {Questions} _.

(** The session as [types.ts] declares it. *)
Abbreviation InterviewSession := (Session (list jsstring)).

(** ** The generative-language SDK, as the application uses it *)

Module GenAI.

Inductive Part : Type :=
  | text (t : jsstring)
  | inlineData (mimeType data : jsstring).

Inductive Contents : Type :=
  | prompt (s : jsstring)
  | parts (ps : list Part).

(** [Type.*] schemas of the SDK. *)
Inductive Schema : Type :=
  | STRING
  | NUMBER
  | BOOLEAN
  | ARRAY (items : Schema)
  | OBJECT (properties : list (string * Schema)).

Record Request : Type := {
  model : jsstring;
  contents : Contents;
  systemInstruction : option jsstring;
  responseMimeType : jsstring;
  responseSchema : Schema;
}.

(** How [await ai.models.generateContent(..)] followed by
    [JSON.parse(response.text)] ends: the SDK call throws, the text is not
    JSON, or a value is parsed.  [A] is the type the code reads the value
    at: any JSON value for the questions, whose variable is untyped, and
    the declared [EvaluationResult] for the evaluation. *)
Inductive Outcome (A : Type) : Type :=
  | SdkError
  | Unparsable
  | Parsed (v : A).

#[global] Arguments SdkError {A}.
#[global] Arguments Unparsable {A}.
#[global] Arguments Parsed {A} v.

End GenAI.

Import GenAI.

(** ** [components/Home.tsx] *)

Module Home.

Record State : Type := {
  role : jsstring;
  difficulty : jsstring;
}.

(** [useState('Software Engineer')], [useState('Medium')]. *)
Definition init : State :=
  {| role := lit "Software Engineer"; difficulty := lit "Medium" |}.

Definition setRole (v : jsstring) (s : State) : State :=
  {| role := v; difficulty := difficulty s |}.

Definition setDifficulty (v : jsstring) (s : State) : State :=
  {| role := role s; difficulty := v |}.

(** The two [<select>] elements' [onChange]. *)
Inductive Event : Type :=
  | ChangeRole (value : jsstring)
  | ChangeDifficulty (value : jsstring).

Definition step (s : State) (e : Event) : State :=
  match e with
  | ChangeRole v => setRole v s
  | ChangeDifficulty v => setDifficulty v s
  end.

Definition run (es : list Event) : State := fold_left step es init.

(** [handleSubmit]: the argument of [onStartInterview]. *)
Definition handleSubmit (s : State) : InterviewConfig :=
  Build_InterviewConfig (role s) (difficulty s).

End Home.

(** ** [App.tsx] *)

Module App.

Record State : Type := {
  appState : AppState;
  session : option (Session JSON);
  loadingMessage : jsstring;
  error : option jsstring;
}.

(** [useState('HOME')], [useState(null)], [useState('')], [useState(null)]. *)
Definition init : State :=
  {| appState := HOME; session := None; loadingMessage := []; error := None |}.

Definition setAppState (v : AppState) (s : State) : State :=
  {| appState := v; session := session s;
     loadingMessage := loadingMessage s; error := error s |}.

Definition setSession (v : option (Session JSON)) (s : State) : State :=
  {| appState := appState s; session := v;
     loadingMessage := loadingMessage s; error := error s |}.

Definition setLoadingMessage (v : jsstring) (s : State) : State :=
  {| appState := appState s; session := session s;
     loadingMessage := v; error := error s |}.

Definition setError (v : option jsstring) (s : State) : State :=
  {| appState := appState s; session := session s;
     loadingMessage := loadingMessage s; error := v |}.

(** What a [throw] inside a [try] block carries to its [catch]. *)
Inductive Exception : Type :=
  | SdkException
  | SyntaxError
  | TypeError
  | Error (message : jsstring).

(** *** [startInterview] *)

Definition startInterview_request (config : InterviewConfig) : Request :=
  {| model := lit "gemini-2.5-flash";
     contents :=
       prompt (lit "Generate 5 interview questions for a "
               ++ difficulty config ++ lit " " ++ role config
               ++ lit " position.");
     systemInstruction := None;
     responseMimeType := lit "application/json";
     responseSchema := OBJECT [("questions"%string, ARRAY STRING)] |}.

(** The statements before the [await]. *)
Definition startInterview_begin (s : State) : State :=
  setError None
    (setLoadingMessage (lit "Generating your interview questions...")
       (setAppState LOADING s)).

(** The [try] block from the [await] on.  [responseJson.questions] is read
    from whatever was parsed, and the guard is
    [!questions || questions.length === 0]. *)
Definition startInterview_try (config : InterviewConfig)
    (r : Outcome JSON) (s : State) : State + Exception :=
  match r with
  | SdkError => inr SdkException
  | Unparsable => inr SyntaxError
  | Parsed responseJson =>
      match get responseJson (lit "questions") with
      | Throws => inr TypeError
      | Undefined =>
          inr (Error (lit "Failed to generate questions. Please try again."))
      | Value questions =>
          if negb (truthy questions) || length_is_zero questions then
            inr (Error (lit "Failed to generate questions. Please try again."))
          else
            inl (setAppState INTERVIEW
                   (setSession
                      (Some {| config := config; questions := questions;
                               answers := []; snapshots := ∅;
                               malpracticeLogs := Some ∅;
                               evaluation := None |}) s))
      end
  end.

Definition startInterview_resume (config : InterviewConfig)
    (r : Outcome JSON) (s : State) : State :=
  match startInterview_try config r s with
  | inl s' => s'
  | inr _ =>
      setAppState HOME
        (setError
           (Some (lit "Could not generate questions. Please check your API key and try again."))
           s)
  end.

(** *** [handleInterviewComplete] *)

Definition malpracticeLogText (malpracticeLogs : gmap nat (list jsstring))
  : jsstring :=
  if some (λ logs, 0 <? length logs) (Object_values malpracticeLogs)
  then nl ++ nl
       ++ lit "Additionally, analyze the following malpractice logs. The candidate was alerted in real-time. Factor any detected malpractice into the overall evaluation, particularly in the 'Weaknesses' and 'Overall Score' sections."
       ++ nl ++ lit "Malpractice Logs:" ++ nl
       ++ JSON_stringify malpracticeLogs
  else [].

(** The template up to the interpolation of [malpracticeLogText]. *)
Definition baseInstruction (config : InterviewConfig) : jsstring :=
  lit "You are an expert interviewer evaluating a candidate for a "
  ++ difficulty config ++ lit " " ++ role config
  ++ lit " role. Analyze the following questions, the candidate's transcribed answers, and snapshots of their body language. Provide a comprehensive evaluation in JSON format."
  ++ nl ++ nl
  ++ lit "        The JSON object should have the following structure:" ++ nl
  ++ lit "        - overallScore: A number from 0 to 100." ++ nl
  ++ lit "        - criteria: An array of objects, each with 'name' (e.g., "
  ++ dquote ++ lit "Clarity" ++ dquote ++ lit ", "
  ++ dquote ++ lit "Technical Depth" ++ dquote ++ lit ", "
  ++ dquote ++ lit "Problem Solving" ++ dquote ++ lit ", "
  ++ dquote ++ lit "Communication" ++ dquote ++ lit ", "
  ++ dquote ++ lit "Body Language" ++ dquote
  ++ lit "), 'score' (0-5), 'maxScore' (always 5), and 'reasoning' (a brief justification for the score)."
  ++ nl
  ++ lit "        - strengths: An array of strings highlighting what the candidate did well." ++ nl
  ++ lit "        - weaknesses: An array of strings pointing out areas of concern." ++ nl
  ++ lit "        - improvements: An array of strings with actionable advice." ++ nl
  ++ lit "        - bodyLanguageFeedback: A paragraph summarizing their non-verbal cues from the images.".

Definition systemInstruction_of (config : InterviewConfig)
    (malpracticeLogs : gmap nat (list jsstring)) : jsstring :=
  baseInstruction config ++ malpracticeLogText malpracticeLogs.

(** [Array.prototype.push] and [Array.prototype.forEach]. *)
Definition push {A} (a : list A) (x : A) : list A := a ++ [x].

Fixpoint forEach_from {A B} (f : B → A → nat → B) (l : list A) (index : nat)
    (st : B) : B :=
  match l with
  | [] => st
  | x :: l' => forEach_from f l' (S index) (f st x index)
  end.

Definition forEach {A B} (f : B → A → nat → B) (l : list A) (st : B) : B :=
  forEach_from f l 0 st.

(** The body of [session.questions.forEach((question, index) => ..)]. *)
Definition push_question (answers : array jsstring)
    (snapshots : gmap nat (list jsstring))
    (ps : list Part) (question : jsstring) (index : nat) : list Part :=
  let ps := push ps (text (nl ++ lit "--- Question "
                           ++ number_to_string (index + 1) ++ lit ": "
                           ++ question ++ lit " ---" ++ nl)) in
  let ps := push ps (text (lit "Candidate's Answer: " ++ dquote
                           ++ or_else (array_get answers index)
                                (lit "(No answer provided)")
                           ++ dquote ++ nl)) in
  let ps := push ps (text (lit "Body Language Snapshots during answer:" ++ nl)) in
  match snapshots !! index with
  | Some (base64Image :: rest) =>
      forEach (λ ps base64Image _,
                 push ps (inlineData (lit "image/jpeg") base64Image))
        (base64Image :: rest) ps
  | Some [] | None => push ps (text (lit "(No snapshots available)" ++ nl))
  end.

Definition evaluation_parts (questions : list jsstring)
    (answers : array jsstring) (snapshots : gmap nat (list jsstring))
  : list Part :=
  forEach (push_question answers snapshots) questions
    [text (lit "Begin Evaluation:" ++ nl)].

Definition evaluation_schema : Schema :=
  OBJECT
    [("overallScore", NUMBER);
     ("criteria",
      ARRAY (OBJECT [("name", STRING); ("score", NUMBER);
                     ("maxScore", NUMBER); ("reasoning", STRING)]));
     ("strengths", ARRAY STRING);
     ("weaknesses", ARRAY STRING);
     ("improvements", ARRAY STRING);
     ("bodyLanguageFeedback", STRING)]%string.

Definition handleInterviewComplete_request (session0 : InterviewSession)
    (answers : array jsstring) (snapshots malpracticeLogs : gmap nat (list jsstring))
  : Request :=
  {| model := lit "gemini-2.5-flash";
     contents := parts (evaluation_parts (questions session0) answers snapshots);
     systemInstruction :=
       Some (systemInstruction_of (config session0) malpracticeLogs);
     responseMimeType := lit "application/json";
     responseSchema := evaluation_schema |}.

(** The statements before the [await]; nothing happens without a session. *)
Definition handleInterviewComplete_begin (s : State) : State :=
  match session s with
  | Some _ =>
      setError None
        (setLoadingMessage
           (lit "Evaluating your performance... This may take a moment.")
           (setAppState LOADING s))
  | None => s
  end.

(** The session [App] holds, at its declared type, for [questions] that
    are an array of strings. *)
Definition declared (session0 : Session JSON) (questions : list jsstring)
  : InterviewSession :=
  {| config := config session0;
     questions := questions;
     answers := answers session0;
     snapshots := snapshots session0;
     malpracticeLogs := malpracticeLogs session0;
     evaluation := evaluation session0 |}.

(** The [try] block from the [await] on; [session0] is the session the
    callback closed over. *)
Definition handleInterviewComplete_try (session0 : Session JSON)
    (answers : array jsstring) (snapshots malpracticeLogs : gmap nat (list jsstring))
    (r : Outcome EvaluationResult) (s : State) : State + Exception :=
  match r with
  | SdkError => inr SdkException
  | Unparsable => inr SyntaxError
  | Parsed evaluationResult =>
      inl (setAppState REPORT
             (setSession
                (Some {| config := config session0;
                         questions := questions session0;
                         answers := answers;
                         snapshots := snapshots;
                         malpracticeLogs := Some malpracticeLogs;
                         evaluation := Some evaluationResult |}) s))
  end.

Definition handleInterviewComplete_resume (session0 : Session JSON)
    (answers : array jsstring) (snapshots malpracticeLogs : gmap nat (list jsstring))
    (r : Outcome EvaluationResult) (s : State) : State :=
  match handleInterviewComplete_try session0 answers snapshots malpracticeLogs r s with
  | inl s' => s'
  | inr _ =>
      setAppState HOME
        (setError
           (Some (lit "An error occurred during evaluation. Please try another interview."))
           s)
  end.

Definition handleTryAgain (s : State) : State :=
  setError None (setAppState HOME (setSession None s)).

(** *** [renderContent] *)

Inductive View : Type :=
  | HomeView (error : option jsstring)
  | LoadingView (message : jsstring)
  | InterviewView (questions : JSON)
  | ReportView (report : EvaluationResult).

Definition renderContent (s : State) : View :=
  match appState s with
  | HOME => HomeView (error s)
  | LOADING => LoadingView (loadingMessage s)
  | INTERVIEW =>
      match session s with
      | Some session =>
          if truthy (questions session) then InterviewView (questions session)
          else HomeView (Some (lit "An unexpected error occurred."))
      | None => HomeView (Some (lit "An unexpected error occurred."))
      end
  | REPORT =>
      match session s ≫= evaluation with
      | Some evaluation => ReportView evaluation
      | None => HomeView (Some (lit "Failed to load the report."))
      end
  end.

End App.

(** ** [components/Interview.tsx] *)

Module Interview.

(** [event.results[i]]: its [isFinal] flag and [results[i][0].transcript]. *)
Record SpeechRecognitionResult : Type := {
  isFinal : bool;
  alternative_transcript : jsstring;
}.

(** The parsed answer of the malpractice check, as the code reads it: the
    truthiness of [phoneDetected] and of [suspiciousGaze], and [reason], a
    string as the response schema asks. *)
Record Analysis : Type := {
  phoneDetected : bool;
  suspiciousGaze : bool;
  reason : jsstring;
}.

(** The browser's interval timers.  A callback is one of the component's two
    closures, with the [currentQuestionIndex] of the render that made it, or
    a closure of an Interview that has been unmounted since. *)
Inductive Callback : Type :=
  | captureSnapshot (index : nat)
  | analyzeFrameForMalpractice (index : nat)
  | unmounted.

Record Interval : Type := {
  callback : Callback;
  delay : N;
}.

Record Window : Type := {
  intervals : gmap nat Interval;
  next_id : nat;
}.

(** [window.setInterval]: a fresh, non-zero id. *)
Definition setInterval (cb : Callback) (ms : N) (w : Window) : nat * Window :=
  (next_id w,
   {| intervals := <[next_id w := {| callback := cb; delay := ms |}]> (intervals w);
      next_id := S (next_id w) |}).

Definition clearInterval (id : nat) (w : Window) : Window :=
  {| intervals := delete id (intervals w); next_id := next_id w |}.

(** [if (ref.current) clearInterval(ref.current)]: [null] and [0] are falsy. *)
Definition clear_if_set (ref : option nat) (w : Window) : Window :=
  match ref with
  | Some (S n) => clearInterval (S n) w
  | Some 0 | None => w
  end.

(** The component: its [useState] cells, its refs, the alert timeouts it has
    set, the malpractice checks whose response it awaits (each with the
    question index its closure holds) and the interval timers of the
    window.  The recognizer and the video element are its environment: they
    show as the events [RecognitionResult] and [RecognitionError] and as the
    frame an interval callback finds. *)
Record State : Type := {
  currentQuestionIndex : nat;
  transcript : jsstring;
  isRecording : bool;
  isProcessing : bool;
  malpracticeAlert : option jsstring;
  alertTimeouts : nat;
  pendingChecks : list nat;
  answersRef : array jsstring;
  snapshotsRef : gmap nat (list jsstring);
  malpracticeLogsRef : gmap nat (list jsstring);
  snapshotIntervalRef : option nat;
  malpracticeCheckIntervalRef : option nat;
  window : Window;
}.

(** The component as first mounted, in a window without timers. *)
Definition init : State :=
  {| currentQuestionIndex := 0; transcript := []; isRecording := false;
     isProcessing := false; malpracticeAlert := None; alertTimeouts := 0;
     pendingChecks := [];
     answersRef := []; snapshotsRef := ∅; malpracticeLogsRef := ∅;
     snapshotIntervalRef := None; malpracticeCheckIntervalRef := None;
     window := {| intervals := ∅; next_id := 1 |} |}.

(** The component as mounted in a window [w] that earlier Interviews may
    have left timers in. *)
Definition mount (w : Window) : State :=
  {| currentQuestionIndex := 0; transcript := []; isRecording := false;
     isProcessing := false; malpracticeAlert := None; alertTimeouts := 0;
     pendingChecks := [];
     answersRef := []; snapshotsRef := ∅; malpracticeLogsRef := ∅;
     snapshotIntervalRef := None; malpracticeCheckIntervalRef := None;
     window := w |}.

(** [recognition.onresult]: the loop over [event.results], then the two
    writes. *)
Definition onresult_loop (results : list SpeechRecognitionResult)
  : jsstring * jsstring :=
  fold_left
    (λ '(finalTranscript, interimTranscript) r,
       let transcriptPart := alternative_transcript r in
       if isFinal r then (finalTranscript ++ transcriptPart ++ lit " ", interimTranscript)
       else (finalTranscript, transcriptPart))
    results ([], []).

Definition onresult (results : list SpeechRecognitionResult) (s : State) : State :=
  let '(finalTranscript, interimTranscript) := onresult_loop results in
  {| currentQuestionIndex := currentQuestionIndex s;
     transcript := trim finalTranscript ++ lit " " ++ interimTranscript;
     isRecording := isRecording s;
     isProcessing := isProcessing s;
     malpracticeAlert := malpracticeAlert s;
     alertTimeouts := alertTimeouts s;
     pendingChecks := pendingChecks s;
     answersRef :=
       array_set (answersRef s) (currentQuestionIndex s) (trim finalTranscript);
     snapshotsRef := snapshotsRef s;
     malpracticeLogsRef := malpracticeLogsRef s;
     snapshotIntervalRef := snapshotIntervalRef s;
     malpracticeCheckIntervalRef := malpracticeCheckIntervalRef s;
     window := window s |}.

(** [recognition.onerror]. *)
Definition onerror (error : jsstring) (s : State) : State :=
  if decide (error = lit "no-speech") then s
  else
    {| currentQuestionIndex := currentQuestionIndex s;
       transcript := transcript s;
       isRecording := false;
       isProcessing := isProcessing s;
       malpracticeAlert := malpracticeAlert s;
       alertTimeouts := alertTimeouts s;
       pendingChecks := pendingChecks s;
       answersRef := answersRef s;
       snapshotsRef := snapshotsRef s;
       malpracticeLogsRef := malpracticeLogsRef s;
       snapshotIntervalRef := snapshotIntervalRef s;
       malpracticeCheckIntervalRef := malpracticeCheckIntervalRef s;
       window := window s |}.

(** The body of [captureSnapshot] for the closure made at [index]; [frame] is
    the JPEG drawn from the video element, when there is one. *)
Definition run_captureSnapshot (index : nat) (frame : option jsstring)
    (s : State) : State :=
  match frame with
  | Some base64Image =>
      {| currentQuestionIndex := currentQuestionIndex s;
         transcript := transcript s;
         isRecording := isRecording s;
         isProcessing := isProcessing s;
         malpracticeAlert := malpracticeAlert s;
         alertTimeouts := alertTimeouts s;
         pendingChecks := pendingChecks s;
         answersRef := answersRef s;
         snapshotsRef := push_at (snapshotsRef s) index base64Image;
         malpracticeLogsRef := malpracticeLogsRef s;
         snapshotIntervalRef := snapshotIntervalRef s;
         malpracticeCheckIntervalRef := malpracticeCheckIntervalRef s;
         window := window s |}
  | None => s
  end.

(** [analyzeFrameForMalpractice] for the closure made at [index], up to its
    [await]: with a frame, the request is sent and its response awaited. *)
Definition analyzeFrameForMalpractice_begin (index : nat)
    (frame : option jsstring) (s : State) : State :=
  match frame with
  | Some _ =>
      {| currentQuestionIndex := currentQuestionIndex s;
         transcript := transcript s;
         isRecording := isRecording s;
         isProcessing := isProcessing s;
         malpracticeAlert := malpracticeAlert s;
         alertTimeouts := alertTimeouts s;
         pendingChecks := pendingChecks s ++ [index];
         answersRef := answersRef s;
         snapshotsRef := snapshotsRef s;
         malpracticeLogsRef := malpracticeLogsRef s;
         snapshotIntervalRef := snapshotIntervalRef s;
         malpracticeCheckIntervalRef := malpracticeCheckIntervalRef s;
         window := window s |}
  | None => s
  end.

Definition analyzeFrameForMalpractice_request (base64Image : jsstring) : Request :=
  {| model := lit "gemini-2.5-flash";
     contents :=
       parts
         [inlineData (lit "image/jpeg") base64Image;
          text (lit "Analyze this image from a user's webcam during an interview. Is there a mobile phone visible? Is the user looking away from the screen in a way that suggests they are reading from another source or using a proxy? Respond ONLY with a JSON object: {"
                ++ dquote ++ lit "phoneDetected" ++ dquote ++ lit ": boolean, "
                ++ dquote ++ lit "suspiciousGaze" ++ dquote ++ lit ": boolean, "
                ++ dquote ++ lit "reason" ++ dquote ++ lit ": string}.")];
     systemInstruction := None;
     responseMimeType := lit "application/json";
     responseSchema :=
       OBJECT [("phoneDetected", BOOLEAN); ("suspiciousGaze", BOOLEAN);
               ("reason", STRING)]%string |}.

(** [analyzeFrameForMalpractice] from its [await] on, for the [n]-th check
    awaited, whose closure was made at [index]; a failed check is only
    logged to the console.  A finding sets the alert, is pushed to the log
    of [index] and sets a 5000 ms timeout that resets the alert. *)
Definition analyzeFrameForMalpractice_resume (n index : nat)
    (r : Outcome Analysis) (s : State) : State :=
  let settled :=
    {| currentQuestionIndex := currentQuestionIndex s;
       transcript := transcript s;
       isRecording := isRecording s;
       isProcessing := isProcessing s;
       malpracticeAlert := malpracticeAlert s;
       alertTimeouts := alertTimeouts s;
       pendingChecks := delete n (pendingChecks s);
       answersRef := answersRef s;
       snapshotsRef := snapshotsRef s;
       malpracticeLogsRef := malpracticeLogsRef s;
       snapshotIntervalRef := snapshotIntervalRef s;
       malpracticeCheckIntervalRef := malpracticeCheckIntervalRef s;
       window := window s |} in
  match r with
  | Parsed result =>
      if phoneDetected result || suspiciousGaze result then
        {| currentQuestionIndex := currentQuestionIndex s;
           transcript := transcript s;
           isRecording := isRecording s;
           isProcessing := isProcessing s;
           malpracticeAlert := Some (reason result);
           alertTimeouts := S (alertTimeouts s);
           pendingChecks := delete n (pendingChecks s);
           answersRef := answersRef s;
           snapshotsRef := snapshotsRef s;
           malpracticeLogsRef := push_at (malpracticeLogsRef s) index (reason result);
           snapshotIntervalRef := snapshotIntervalRef s;
           malpracticeCheckIntervalRef := malpracticeCheckIntervalRef s;
           window := window s |}
      else settled
  | SdkError | Unparsable => settled
  end.

(** [setTimeout(() => setMalpracticeAlert(null), 5000)] elapses. *)
Definition alert_timeout (s : State) : State :=
  {| currentQuestionIndex := currentQuestionIndex s;
     transcript := transcript s;
     isRecording := isRecording s;
     isProcessing := isProcessing s;
     malpracticeAlert := None;
     alertTimeouts := pred (alertTimeouts s);
     pendingChecks := pendingChecks s;
     answersRef := answersRef s;
     snapshotsRef := snapshotsRef s;
     malpracticeLogsRef := malpracticeLogsRef s;
     snapshotIntervalRef := snapshotIntervalRef s;
     malpracticeCheckIntervalRef := malpracticeCheckIntervalRef s;
     window := window s |}.

Definition handleToggleRecording (s : State) : State :=
  if isRecording s then
    {| currentQuestionIndex := currentQuestionIndex s;
       transcript := transcript s;
       isRecording := false;
       isProcessing := isProcessing s;
       malpracticeAlert := None;
       alertTimeouts := alertTimeouts s;
       pendingChecks := pendingChecks s;
       answersRef := answersRef s;
       snapshotsRef := snapshotsRef s;
       malpracticeLogsRef := malpracticeLogsRef s;
       snapshotIntervalRef := None;
       malpracticeCheckIntervalRef := None;
       window :=
         clear_if_set (malpracticeCheckIntervalRef s)
           (clear_if_set (snapshotIntervalRef s) (window s)) |}
  else
    let index := currentQuestionIndex s in
    let '(snapshotId, w) := setInterval (captureSnapshot index) 5000%N (window s) in
    let '(malpracticeId, w) := setInterval (analyzeFrameForMalpractice index) 8000%N w in
    {| currentQuestionIndex := index;
       transcript := [];
       isRecording := true;
       isProcessing := isProcessing s;
       malpracticeAlert := None;
       alertTimeouts := alertTimeouts s;
       pendingChecks := pendingChecks s;
       answersRef := array_set (answersRef s) index [];
       snapshotsRef := snapshotsRef s;
       malpracticeLogsRef := <[index := []]> (malpracticeLogsRef s);
       snapshotIntervalRef := Some snapshotId;
       malpracticeCheckIntervalRef := Some malpracticeId;
       window := w |}.

(** [handleNextQuestion] up to its [await]; [transcript] is the value of
    the render the handler belongs to. *)
Definition handleNextQuestion_begin (s : State) : State :=
  let s1 := if isRecording s then handleToggleRecording s else s in
  {| currentQuestionIndex := currentQuestionIndex s1;
     transcript := transcript s1;
     isRecording := isRecording s1;
     isProcessing := true;
     malpracticeAlert := malpracticeAlert s1;
     alertTimeouts := alertTimeouts s1;
     pendingChecks := pendingChecks s1;
     answersRef :=
       array_set (answersRef s1) (currentQuestionIndex s) (trim (transcript s));
     snapshotsRef := snapshotsRef s1;
     malpracticeLogsRef := malpracticeLogsRef s1;
     snapshotIntervalRef := snapshotIntervalRef s1;
     malpracticeCheckIntervalRef := malpracticeCheckIntervalRef s1;
     window := window s1 |}.

(** The arguments of [onInterviewComplete]: the three ref objects, by what
    they hold at the call. *)
Record Completion : Type := {
  completed_answers : array jsstring;
  completed_snapshots : gmap nat (list jsstring);
  completed_malpracticeLogs : gmap nat (list jsstring);
}.

(** The cleanup of the effect, run when [currentQuestionIndex] changes and
    when the component unmounts. *)
Definition effect_cleanup (s : State) : Window :=
  clear_if_set (malpracticeCheckIntervalRef s)
    (clear_if_set (snapshotIntervalRef s) (window s)).

(** The window the component leaves when it unmounts: the intervals its
    cleanup does not clear stay installed; their callbacks now find
    [videoRef.current] null. *)
Definition unmount (s : State) : Window :=
  {| intervals :=
       (λ I, {| callback := unmounted; delay := delay I |})
       <$> intervals (effect_cleanup s);
     next_id := next_id (effect_cleanup s) |}.

(** [handleNextQuestion] after the 500 ms [await]. *)
Definition handleNextQuestion_resume (questions : list jsstring) (s : State)
  : State * option Completion :=
  if (Z.of_nat (currentQuestionIndex s) <? Z.of_nat (length questions) - 1)%Z then
    ({| currentQuestionIndex := currentQuestionIndex s + 1;
        transcript := [];
        isRecording := isRecording s;
        isProcessing := false;
        malpracticeAlert := malpracticeAlert s;
        alertTimeouts := alertTimeouts s;
        pendingChecks := pendingChecks s;
        answersRef := answersRef s;
        snapshotsRef := snapshotsRef s;
        malpracticeLogsRef := malpracticeLogsRef s;
        snapshotIntervalRef := snapshotIntervalRef s;
        malpracticeCheckIntervalRef := malpracticeCheckIntervalRef s;
        window := effect_cleanup s |},
     None)
  else
    ({| currentQuestionIndex := currentQuestionIndex s;
        transcript := [];
        isRecording := isRecording s;
        isProcessing := false;
        malpracticeAlert := malpracticeAlert s;
        alertTimeouts := alertTimeouts s;
        pendingChecks := pendingChecks s;
        answersRef := answersRef s;
        snapshotsRef := snapshotsRef s;
        malpracticeLogsRef := malpracticeLogsRef s;
        snapshotIntervalRef := snapshotIntervalRef s;
        malpracticeCheckIntervalRef := malpracticeCheckIntervalRef s;
        window := window s |},
     Some {| completed_answers := answersRef s;
             completed_snapshots := snapshotsRef s;
             completed_malpracticeLogs := malpracticeLogsRef s |}).

(** What can happen to the mounted component. *)
Inductive Event : Type :=
  | ToggleRecordingClick
  | NextQuestionClick
  | NextQuestionTimeout
  | RecognitionResult (results : list SpeechRecognitionResult)
  | RecognitionError (error : jsstring)
  | IntervalFires (id : nat) (frame : option jsstring)
  | AnalysisSettled (n : nat) (r : Outcome Analysis)
  | AlertTimeout.

(** One event; [None] when it cannot happen in [s]: a disabled button, an
    interval that is not installed, a check that is not awaited, a timeout
    that was not set. *)
Definition step (questions : list jsstring) (s : State) (e : Event)
  : option (State * option Completion) :=
  match e with
  | ToggleRecordingClick =>
      if isProcessing s then None else Some (handleToggleRecording s, None)
  | NextQuestionClick =>
      if isProcessing s || isRecording s then None
      else Some (handleNextQuestion_begin s, None)
  | NextQuestionTimeout =>
      if isProcessing s then Some (handleNextQuestion_resume questions s) else None
  | RecognitionResult results => Some (onresult results s, None)
  | RecognitionError error => Some (onerror error s, None)
  | IntervalFires id frame =>
      match intervals (window s) !! id with
      | Some {| callback := captureSnapshot index |} =>
          Some (run_captureSnapshot index frame s, None)
      | Some {| callback := analyzeFrameForMalpractice index |} =>
          Some (analyzeFrameForMalpractice_begin index frame s, None)
      | Some {| callback := unmounted |} => Some (s, None)
      | None => None
      end
  | AnalysisSettled n r =>
      match pendingChecks s !! n with
      | Some index => Some (analyzeFrameForMalpractice_resume n index r s, None)
      | None => None
      end
  | AlertTimeout =>
      match alertTimeouts s with
      | S _ => Some (alert_timeout s, None)
      | 0 => None
      end
  end.

(** A sequence of events from [s]: the state reached and the completions
    reported to the parent, in order. *)
Fixpoint run (questions : list jsstring) (s : State) (es : list Event)
  : option (State * list Completion) :=
  match es with
  | [] => Some (s, [])
  | e :: es' =>
      '(s', c) ← step questions s e;
      '(s'', cs) ← run questions s' es';
      Some (s'', option_list c ++ cs)
  end.

Definition reachable (questions : list jsstring) (s : State) : Prop :=
  ∃ es cs, run questions init es = Some (s, cs).

(** The request an event sends: an interval tick that starts a malpractice
    check. *)
Definition sends (s : State) (e : Event) : option Request :=
  match e with
  | IntervalFires id (Some base64Image) =>
      match intervals (window s) !! id with
      | Some {| callback := analyzeFrameForMalpractice _ |} =>
          Some (analyzeFrameForMalpractice_request base64Image)
      | _ => None
      end
  | _ => None
  end.

(** An event other than a speech-recognition error that ends recording. *)
Definition recognition_ok (e : Event) : bool :=
  match e with
  | RecognitionError error => bool_decide (error = lit "no-speech")
  | _ => true
  end.

(** The installed intervals are the two of the current recording, and none
    when recording is off. *)
Definition timers_follow_recording (s : State) : Prop :=
  0 < next_id (window s)
  ∧ (isProcessing s = true → isRecording s = false)
  ∧ if isRecording s then
      ∃ a b Ia Ib,
        snapshotIntervalRef s = Some (S a)
        ∧ malpracticeCheckIntervalRef s = Some (S b)
        ∧ intervals (window s) = <[S b := Ib]> (<[S a := Ia]> ∅)
    else intervals (window s) = ∅.

End Interview.

(** ** The running application

    [App] with the child component it currently renders, its handler that
    is suspended at an [await], if any, and the timers of the browser
    window.  The malpractice checks an Interview awaits are part of that
    component's state, and an Interview is followed while it is mounted:
    what a check that settles after the unmount pushes to the log object is
    not. *)

Module System.

(** The component mounted under [App], with its own state. *)
Inductive Component : Type :=
  | HomeC (h : Home.State)
  | LoadingC
  | InterviewC (i : Interview.State)
  | ReportC.

(** A re-render keeps the state of a child of the same type and mounts a
    child of another type afresh; an Interview is mounted in the window [w]
    as the last one left it. *)
Definition reconcile (old : Component) (w : Interview.Window) (v : App.View)
  : Component :=
  match v, old with
  | App.HomeView _, HomeC h => HomeC h
  | App.HomeView _, _ => HomeC Home.init
  | App.LoadingView _, _ => LoadingC
  | App.InterviewView _, InterviewC i => InterviewC i
  | App.InterviewView _, _ => InterviewC (Interview.mount w)
  | App.ReportView _, _ => ReportC
  end.

(** The window after the re-render: an Interview that is taken down runs
    its cleanup. *)
Definition unmounting (old : Component) (w : Interview.Window) (v : App.View)
  : Interview.Window :=
  match v, old with
  | App.InterviewView _, _ => w
  | _, InterviewC i => Interview.unmount i
  | _, _ => w
  end.

(** The continuation of a handler of [App] suspended at its [await], with
    the values it closed over. *)
Inductive Pending : Type :=
  | AwaitQuestions (config : InterviewConfig)
  | AwaitEvaluation (session0 : Session JSON) (answers : array jsstring)
      (snapshots malpracticeLogs : gmap nat (list jsstring)).

(** [window] is the browser window while no Interview is mounted; a mounted
    Interview carries it in its own state. *)
Record State : Type := {
  app : App.State;
  child : Component;
  pending : option Pending;
  window : Interview.Window;
}.

Definition init : State :=
  {| app := App.init; child := HomeC Home.init; pending := None;
     window := {| Interview.intervals := ∅; Interview.next_id := 1 |} |}.

Definition render (a : App.State) (old : Component) (w : Interview.Window)
    (p : option Pending) : State :=
  {| app := a;
     child := reconcile old w (App.renderContent a);
     pending := p;
     window := unmounting old w (App.renderContent a) |}.

(** [UntypedInterviewComplete]: an Interview that was given [questions]
    that are not an array of strings calls [onInterviewComplete].  Such an
    Interview is not followed event by event: it may call with any
    arguments. *)
Inductive Event : Type :=
  | HomeChange (e : Home.Event)
  | HomeSubmit
  | QuestionsSettled (r : Outcome JSON)
  | InterviewEvent (e : Interview.Event)
  | UntypedInterviewComplete (c : Interview.Completion) (request : option Request)
  | EvaluationSettled (r : Outcome EvaluationResult)
  | TryAgainClick.

(** [onInterviewComplete] as [App] passes it down, for [questions] that are
    an array of strings. *)
Definition interview_complete (questions : list jsstring)
    (c : Interview.Completion) (σ : State) (i : Interview.State)
  : State * option Request :=
  match App.session (app σ) with
  | Some session0 =>
      let answers := Interview.completed_answers c in
      let snapshots := Interview.completed_snapshots c in
      let malpracticeLogs := Interview.completed_malpracticeLogs c in
      (render (App.handleInterviewComplete_begin (app σ)) (InterviewC i) (window σ)
         (Some (AwaitEvaluation session0 answers snapshots malpracticeLogs)),
       Some (App.handleInterviewComplete_request (App.declared session0 questions)
               answers snapshots malpracticeLogs))
  | None => (render (app σ) (InterviewC i) (window σ) (pending σ), None)
  end.

(** The same for other [questions].  [session.questions.forEach] throws a
    [TypeError] unless [questions] is an array: the handler then ends before
    its [try], in ['LOADING'] and with nothing sent.  The parts assembled
    from an array with elements that are not strings are not modelled: the
    request is the [request] of the event. *)
Definition untyped_complete (questions : JSON) (c : Interview.Completion)
    (request : option Request) (σ : State) (i : Interview.State)
  : option (State * option Request) :=
  match App.session (app σ) with
  | Some session0 =>
      match questions, request with
      | JArray _, Some _ =>
          Some (render (App.handleInterviewComplete_begin (app σ)) (InterviewC i)
                  (window σ)
                  (Some (AwaitEvaluation session0 (Interview.completed_answers c)
                           (Interview.completed_snapshots c)
                           (Interview.completed_malpracticeLogs c))),
                request)
      | JArray _, None => None
      | _, Some _ => None
      | _, None =>
          Some (render (App.handleInterviewComplete_begin (app σ)) (InterviewC i)
                  (window σ) (pending σ),
                None)
      end
  | None =>
      match request with
      | Some _ => None
      | None => Some (render (app σ) (InterviewC i) (window σ) (pending σ), None)
      end
  end.

(** One event, with the API request it sends, if any; [None] when the event
    cannot happen in [σ]. *)
Definition step (σ : State) (e : Event) : option (State * option Request) :=
  match e, child σ, pending σ with
  | HomeChange e, HomeC h, _ =>
      Some ({| app := app σ; child := HomeC (Home.step h e); pending := pending σ;
               window := window σ |}, None)
  | HomeSubmit, HomeC h, _ =>
      let config := Home.handleSubmit h in
      Some (render (App.startInterview_begin (app σ)) (HomeC h) (window σ)
              (Some (AwaitQuestions config)),
            Some (App.startInterview_request config))
  | QuestionsSettled r, _, Some (AwaitQuestions config) =>
      Some (render (App.startInterview_resume config r (app σ)) (child σ) (window σ)
              None, None)
  | InterviewEvent e, InterviewC i, _ =>
      match App.renderContent (app σ) with
      | App.InterviewView value =>
          questions ← string_array value;
          '(i', c) ← Interview.step questions i e;
          match c with
          | Some c => Some (interview_complete questions c σ i')
          | None =>
              Some ({| app := app σ; child := InterviewC i'; pending := pending σ;
                       window := window σ |}, Interview.sends i e)
          end
      | _ => None
      end
  | UntypedInterviewComplete c request, InterviewC i, _ =>
      match App.renderContent (app σ) with
      | App.InterviewView value =>
          match string_array value with
          | Some _ => None
          | None => untyped_complete value c request σ i
          end
      | _ => None
      end
  | EvaluationSettled r, _, Some (AwaitEvaluation session0 answers snapshots malpracticeLogs) =>
      Some (render
              (App.handleInterviewComplete_resume session0 answers snapshots
                 malpracticeLogs r (app σ))
              (child σ) (window σ) None, None)
  | TryAgainClick, ReportC, _ =>
      Some (render (App.handleTryAgain (app σ)) ReportC (window σ) (pending σ), None)
  | _, _, _ => None
  end.

Fixpoint run (σ : State) (es : list Event) : option (State * list Request) :=
  match es with
  | [] => Some (σ, [])
  | e :: es' =>
      '(σ', q) ← step σ e;
      '(σ'', qs) ← run σ' es';
      Some (σ'', option_list q ++ qs)
  end.

Definition reachable (σ : State) : Prop :=
  ∃ es qs, run init es = Some (σ, qs).

(** The three screens of the application. *)
Definition is_screen (v : App.View) : bool :=
  match v with
  | App.HomeView _ | App.InterviewView _ | App.ReportView _ => true
  | App.LoadingView _ => false
  end.

(** The mounted child is the one [renderContent] asks for, and a handler of
    [App] is suspended only in ['LOADING']. *)
Definition consistent (σ : State) : Prop :=
  child σ = reconcile (child σ) (window σ) (App.renderContent (app σ))
  ∧ (is_Some (pending σ) → App.appState (app σ) = LOADING).

End System.

(** ** What the requests and the transcript are said to be

    Stated from the description of the application, to be compared with
    what the handlers compute. *)

Module Spec.

(** The value a [<select>] holds: the last one chosen, or its default. *)
Definition selected_role (es : list Home.Event) : jsstring :=
  default (lit "Software Engineer")
    (last (omap (λ e, match e with Home.ChangeRole v => Some v | _ => None end) es)).

Definition selected_difficulty (es : list Home.Event) : jsstring :=
  default (lit "Medium")
    (last (omap (λ e, match e with Home.ChangeDifficulty v => Some v | _ => None end) es)).

(** The answer at an index, or the placeholder when it is missing or empty. *)
Definition answer_or_placeholder (answers : array jsstring) (i : nat) : jsstring :=
  match array_get answers i with
  | None => lit "(No answer provided)"
  | Some a => if decide (a = []) then lit "(No answer provided)" else a
  end.

(** One inline JPEG part per snapshot of a question, or the single text part
    when it has none. *)
Definition snapshot_parts (snapshots : gmap nat (list jsstring)) (i : nat)
  : list Part :=
  match snapshots !! i with
  | Some l =>
      if decide (l = []) then [text (lit "(No snapshots available)" ++ nl)]
      else inlineData (lit "image/jpeg") <$> l
  | None => [text (lit "(No snapshots available)" ++ nl)]
  end.

(** The parts of the question at index [i]. *)
Definition question_block (answers : array jsstring)
    (snapshots : gmap nat (list jsstring)) (i : nat) (q : jsstring) : list Part :=
  [text (nl ++ lit "--- Question " ++ number_to_string (i + 1) ++ lit ": " ++ q
         ++ lit " ---" ++ nl);
   text (lit "Candidate's Answer: " ++ dquote ++ answer_or_placeholder answers i
         ++ dquote ++ nl);
   text (lit "Body Language Snapshots during answer:" ++ nl)]
  ++ snapshot_parts snapshots i.

Definition request_parts (questions : list jsstring) (answers : array jsstring)
    (snapshots : gmap nat (list jsstring)) : list Part :=
  text (lit "Begin Evaluation:" ++ nl)
  :: concat (imap (question_block answers snapshots) questions).

(** The finalized parts of a result list, each followed by a space. *)
Definition finalized (results : list Interview.SpeechRecognitionResult) : jsstring :=
  concat ((λ r, Interview.alternative_transcript r ++ lit " ")
          <$> filter (λ r, Interview.isFinal r = true) results).

(** The latest part that is not final, empty when every part is. *)
Definition latest_interim (results : list Interview.SpeechRecognitionResult)
  : jsstring :=
  default []
    (last (Interview.alternative_transcript
           <$> filter (λ r, Interview.isFinal r = false) results)).

(** The text the malpractice logs add to the system instruction. *)
Definition malpractice_text (malpracticeLogs : gmap nat (list jsstring)) : jsstring :=
  nl ++ nl
  ++ lit "Additionally, analyze the following malpractice logs. The candidate was alerted in real-time. Factor any detected malpractice into the overall evaluation, particularly in the 'Weaknesses' and 'Overall Score' sections."
  ++ nl ++ lit "Malpractice Logs:" ++ nl ++ JSON_stringify malpracticeLogs.

(** What the system instruction of the second copy of [App.tsx] says about
    logged malpractice: the serialized logs, and the demand for the report
    section. *)
Definition quoted_logs (malpracticeLogs : gmap nat (list jsstring)) : jsstring :=
  lit "The user triggered malpractice alerts during the interview. Here are the logs: "
  ++ JSON_stringify malpracticeLogs
  ++ lit ". You MUST address this in the 'malpracticeReport' section of your response. Explain the infractions and how they negatively impacted the score.".

(** The ways the question request fails: the SDK call throws, the response
    does not parse, or the parsed response has no [questions] or an empty
    array. *)
Inductive generation_failed : Outcome JSON → Prop :=
  | generation_throws : generation_failed SdkError
  | generation_unparsable : generation_failed Unparsable
  | questions_missing v :
      get v (lit "questions") = Undefined → generation_failed (Parsed v)
  | questions_empty v :
      get v (lit "questions") = Value (JArray []) → generation_failed (Parsed v).

(** The ways the evaluation request fails. *)
Inductive evaluation_failed : Outcome EvaluationResult → Prop :=
  | evaluation_throws : evaluation_failed SdkError
  | evaluation_unparsable : evaluation_failed Unparsable.

(** An API call of the running application settles with a failure. *)
Inductive api_failure (σ : System.State) : System.Event → Prop :=
  | startInterview_fails config r :
      System.pending σ = Some (System.AwaitQuestions config) →
      generation_failed r →
      api_failure σ (System.QuestionsSettled r)
  | handleInterviewComplete_fails session0 answers snapshots malpracticeLogs r :
      System.pending σ
      = Some (System.AwaitEvaluation session0 answers snapshots malpracticeLogs) →
      evaluation_failed r →
      api_failure σ (System.EvaluationSettled r).

End Spec.

(** ** Sample states and inputs *)

Module Sample.

(** The application right after the untouched Home form is submitted. *)
Definition awaiting_questions : System.State :=
  {| System.app := App.startInterview_begin App.init;
     System.child := System.LoadingC;
     System.pending := Some (System.AwaitQuestions (Home.handleSubmit Home.init));
     System.window := {| Interview.intervals := ∅; Interview.next_id := 1 |} |}.

Definition result : EvaluationResult :=
  {| overallScore := 72;
     criteria := [{| name := lit "Clarity"; score := 4; maxScore := 5;
                     reasoning := lit "Clear answers." |}];
     strengths := [lit "Structured"];
     weaknesses := [];
     improvements := [lit "Give examples"];
     bodyLanguageFeedback := lit "Calm." |}.

Definition questions : list jsstring :=
  [lit "Tell me about yourself."; lit "What is a closure?"].

(** A response to the question request with these two questions. *)
Definition response : JSON :=
  JObject [(lit "questions", JArray (JString <$> questions))].

(** The session [startInterview] makes of it. *)
Definition session0 : Session JSON :=
  Build_Session JSON (Home.handleSubmit Home.init) (JArray (JString <$> questions))
    [] ∅ (Some ∅) None.

(** In ['REPORT'] with a session that has no evaluation. *)
Definition report_without_evaluation : App.State :=
  {| App.appState := REPORT; App.session := Some session0;
     App.loadingMessage := []; App.error := None |}.

Definition interviewing : App.State :=
  {| App.appState := INTERVIEW; App.session := Some session0;
     App.loadingMessage := []; App.error := None |}.

(** The Interview component at its second and last question. *)
Definition at_last_question : Interview.State :=
  {| Interview.currentQuestionIndex := 1;
     Interview.transcript := [];
     Interview.isRecording := false;
     Interview.isProcessing := false;
     Interview.malpracticeAlert := None;
     Interview.alertTimeouts := 0;
     Interview.pendingChecks := [];
     Interview.answersRef := [Some []];
     Interview.snapshotsRef := ∅;
     Interview.malpracticeLogsRef := ∅;
     Interview.snapshotIntervalRef := None;
     Interview.malpracticeCheckIntervalRef := None;
     Interview.window := {| Interview.intervals := ∅; Interview.next_id := 1 |} |}.

(** A base64 JPEG frame. *)
Definition frame : jsstring := lit "/9j/4AAQSkZJRgABAQ".

(** A response to the question request whose [questions] is an object. *)
Definition untyped_response : JSON := JObject [(lit "questions", JObject [])].

(** Recording is started and the recognizer then reports a network error. *)
Definition recognition_error_trace : list Interview.Event :=
  [Interview.ToggleRecordingClick; Interview.RecognitionError (lit "network")].

End Sample.

(** ** What the components display *)

Module Display.

(** The text of the second button of [Interview]. *)
Definition nextButtonLabel (questions : list jsstring) (s : Interview.State)
  : jsstring :=
  if Interview.isProcessing s then lit "Processing..."
  else if (Z.of_nat (Interview.currentQuestionIndex s)
           =? Z.of_nat (length questions) - 1)%Z
       then lit "Finish & Evaluate"
       else lit "Next Question".

(** The transcript box: [transcript || "Your transcribed answer ..."]. *)
Definition transcriptBox (s : Interview.State) : jsstring :=
  or_else (Some (Interview.transcript s))
    (lit "Your transcribed answer will appear here...").

(** The colour class of the overall score in [Report]. *)
Definition scoreClass (overallScore : Q) : jsstring :=
  if negb (Qle_bool overallScore 80) then lit "text-emerald-500"
  else if negb (Qle_bool overallScore 60) then lit "text-amber-500"
  else lit "text-rose-500".

(** The order of the three colour classes, worst first. *)
Definition class_rank (c : jsstring) : nat :=
  if decide (c = lit "text-emerald-500") then 2
  else if decide (c = lit "text-amber-500") then 1
  else 0.

End Display.

(** ** What the components keep true *)

Module Invariant.

(** The question index a callback closed over. *)
Definition callback_index (cb : Interview.Callback) : nat :=
  match cb with
  | Interview.captureSnapshot index => index
  | Interview.analyzeFrameForMalpractice index => index
  | Interview.unmounted => 0
  end.

(** Every question passed has an answer entry, and so has the current one
    while [handleNextQuestion] waits. *)
Definition answered (s : Interview.State) : Prop :=
  (∀ i, i < Interview.currentQuestionIndex s →
        is_Some (array_get (Interview.answersRef s) i))
  ∧ (Interview.isProcessing s = true →
     is_Some (array_get (Interview.answersRef s) (Interview.currentQuestionIndex s))).

(** Snapshots, logs, installed callbacks and awaited checks belong to
    questions reached. *)
Definition keys_reached (s : Interview.State) : Prop :=
  (∀ k, is_Some (Interview.snapshotsRef s !! k) → k ≤ Interview.currentQuestionIndex s)
  ∧ (∀ k, is_Some (Interview.malpracticeLogsRef s !! k) →
          k ≤ Interview.currentQuestionIndex s)
  ∧ (∀ id I, Interview.intervals (Interview.window s) !! id = Some I →
             callback_index (Interview.callback I) ≤ Interview.currentQuestionIndex s)
  ∧ Forall (λ index, index ≤ Interview.currentQuestionIndex s)
       (Interview.pendingChecks s).

(** An installed interval that neither ref holds. *)
Definition orphaned (id : nat) (I : Interview.Interval) (s : Interview.State) : Prop :=
  Interview.intervals (Interview.window s) !! id = Some I
  ∧ id < Interview.next_id (Interview.window s)
  ∧ Interview.snapshotIntervalRef s ≠ Some id
  ∧ Interview.malpracticeCheckIntervalRef s ≠ Some id.

(** Every interval installed in the window belongs to an Interview that is
    no longer mounted. *)
Definition inert (w : Interview.Window) : Prop :=
  ∀ id I, Interview.intervals w !! id = Some I →
          Interview.callback I = Interview.unmounted.

(** The ids handed out so far are below the next one. *)
Definition ids_fresh (s : Interview.State) : Prop :=
  ∀ id, is_Some (Interview.intervals (Interview.window s) !! id) →
        id < Interview.next_id (Interview.window s).

(** The number of times the timeout of [handleNextQuestion] elapsed. *)
Fixpoint timeouts (es : list Interview.Event) : nat :=
  match es with
  | [] => 0
  | Interview.NextQuestionTimeout :: es' => S (timeouts es')
  | _ :: es' => timeouts es'
  end.

(** What [App] holds in each state: in ['INTERVIEW'] a session whose
    [questions] passed the guard of [startInterview], and an error only in
    ['HOME']. *)
Definition guarded (a : App.State) : Prop :=
  (App.appState a = INTERVIEW →
   ∃ session0, App.session a = Some session0
               ∧ truthy (questions session0) = true
               ∧ length_is_zero (questions session0) = false)
  ∧ (App.appState a ≠ HOME → App.error a = None)
  ∧ (App.error a = None
     ∨ App.error a
       = Some (lit "Could not generate questions. Please check your API key and try again.")
     ∨ App.error a
       = Some (lit "An error occurred during evaluation. Please try another interview.")).

End Invariant.

(** ** More sample states *)

Module Scenario.

(** Back at Home after the question request failed. *)
Definition generation_failed : System.State :=
  {| System.app :=
       {| App.appState := HOME; App.session := None;
          App.loadingMessage := lit "Generating your interview questions...";
          App.error :=
            Some (lit "Could not generate questions. Please check your API key and try again.") |};
     System.child := System.HomeC Home.init;
     System.pending := None;
     System.window := {| Interview.intervals := ∅; Interview.next_id := 1 |} |}.

(** The events that lead there, with a role chosen before submitting. *)
Definition failing_start : list System.Event :=
  [System.HomeChange (Home.ChangeRole (lit "Data Scientist"));
   System.HomeSubmit;
   System.QuestionsSettled Unparsable].

(** Two questions arrive after the untouched Home form was submitted. *)
Definition good_start : list System.Event :=
  [System.HomeSubmit; System.QuestionsSettled (Parsed Sample.response)].

(** The interview that then starts. *)
Definition interviewing : System.State :=
  {| System.app :=
       App.startInterview_resume (Home.handleSubmit Home.init)
         (Parsed Sample.response) (App.startInterview_begin App.init);
     System.child := System.InterviewC Interview.init;
     System.pending := None;
     System.window := {| Interview.intervals := ∅; Interview.next_id := 1 |} |}.

(** A first interview in which a recognition error orphans the two
    intervals of a recording; its evaluation fails and the Home form is
    submitted again. *)
Definition second_start : list System.Event :=
  good_start
  ++ (System.InterviewEvent
      <$> [Interview.ToggleRecordingClick;
           Interview.RecognitionError (lit "network");
           Interview.ToggleRecordingClick;
           Interview.ToggleRecordingClick;
           Interview.NextQuestionClick; Interview.NextQuestionTimeout;
           Interview.NextQuestionClick; Interview.NextQuestionTimeout])
  ++ [System.EvaluationSettled SdkError; System.HomeSubmit].

Definition restarting : System.State :=
  Eval vm_compute in
    match System.run System.init second_start with
    | Some (σ, _) => σ
    | None => System.init
    end.

Definition second_start_requests : list Request :=
  Eval vm_compute in
    match System.run System.init second_start with
    | Some (_, requests) => requests
    | None => []
    end.

(** The second interview, as it starts. *)
Definition second_interview : System.State :=
  Eval vm_compute in
    match System.step restarting (System.QuestionsSettled (Parsed Sample.response)) with
    | Some (σ, _) => σ
    | None => System.init
    end.

(** Waiting for the questions after ['Data Scientist'] was chosen. *)
Definition awaiting_with_choice : System.State :=
  {| System.app := App.startInterview_begin App.init;
     System.child := System.LoadingC;
     System.pending :=
       Some (System.AwaitQuestions
               (Build_InterviewConfig (lit "Data Scientist") (lit "Medium")));
     System.window := {| Interview.intervals := ∅; Interview.next_id := 1 |} |}.

End Scenario.

(** ** The other [App.tsx]: [handleInterviewComplete] with a malpractice report

    The second copy of the application differs in the evaluation request:
    its system instruction, and a response schema that carries descriptions
    and gains a property when malpractice was logged. *)

Module Revised.

Inductive SchemaType : Type := T_STRING | T_NUMBER | T_ARRAY | T_OBJECT.

(** A schema object of the SDK: [type], [description], [items],
    [properties]. *)
Inductive DSchema : Type :=
  | described (type : SchemaType) (description : option jsstring)
      (items : option DSchema) (properties : list (string * DSchema)).

Definition properties_of (s : DSchema) : list (string * DSchema) :=
  match s with described _ _ _ properties => properties end.

Definition str (d : string) : DSchema := described T_STRING (Some (lit d)) None [].
Definition num (d : string) : DSchema := described T_NUMBER (Some (lit d)) None [].
Definition arr (d : string) (items : DSchema) : DSchema :=
  described T_ARRAY (Some (lit d)) (Some items) [].
Definition obj (d : option string) (properties : list (string * DSchema)) : DSchema :=
  described T_OBJECT (lit <$> d) None properties.

Record Request : Type := {
  model : jsstring;
  contents : Contents;
  systemInstruction : jsstring;
  responseMimeType : jsstring;
  responseSchema : DSchema;
}.

Definition hasMalpractice (malpracticeLogs : gmap nat (list jsstring)) : bool :=
  some (λ logs, 0 <? length logs) (Object_values malpracticeLogs).

Definition malpracticeLogText (malpracticeLogs : gmap nat (list jsstring))
  : jsstring :=
  if hasMalpractice malpracticeLogs
  then lit "The user triggered malpractice alerts during the interview. Here are the logs: "
       ++ JSON_stringify malpracticeLogs
       ++ lit ". You MUST address this in the 'malpracticeReport' section of your response. Explain the infractions and how they negatively impacted the score."
  else lit "No malpractice was detected.".

(** The template up to the interpolation of [malpracticeLogText], and
    after it. *)
Definition instruction_before (config : InterviewConfig) : jsstring :=
  lit "You are a world-class hiring manager and interview coach, providing a detailed, constructive evaluation for a candidate applying for a "
  ++ difficulty config
  ++ lit " "
  ++ role config
  ++ lit " role. Your analysis must be comprehensive, insightful, and presented in a structured JSON format."
  ++ nl
  ++ nl
  ++ lit "      **Analysis Guidelines:**"
  ++ nl
  ++ lit "      1.  **Be Specific:** Ground your feedback in the provided interview data. Quote or paraphrase the candidate's answers where relevant to illustrate your points in strengths, weaknesses, and improvements."
  ++ nl
  ++ lit "      2.  **Analyze Holistically:** Synthesize information from the transcribed answers, body language snapshots, and any malpractice logs to form a cohesive evaluation."
  ++ nl
  ++ lit "      3.  **Constructive Tone:** While being critical, maintain a supportive and encouraging tone. The goal is to help the candidate improve."
  ++ nl
  ++ nl
  ++ lit "      **Input Data Provided:**"
  ++ nl
  ++ lit "      -   Interview questions."
  ++ nl
  ++ lit "      -   Transcribed candidate answers."
  ++ nl
  ++ lit "      -   A series of body language snapshots taken during each answer."
  ++ nl
  ++ lit "      -   Malpractice Logs: ".

Definition instruction_after : jsstring :=
  nl
  ++ nl
  ++ lit "      **Required JSON Output Structure:**"
  ++ nl
  ++ lit "      Provide your entire response as a single JSON object matching the schema below. Do not include any text outside of the JSON structure.".

Definition systemInstruction_of (config : InterviewConfig)
    (malpracticeLogs : gmap nat (list jsstring)) : jsstring :=
  instruction_before config
  ++ malpracticeLogText malpracticeLogs
  ++ instruction_after.

(** [...(hasMalpractice && { malpracticeReport: .. })]: spreading [false]
    adds nothing. *)
Definition malpracticeReport_property (hasMalpractice : bool)
  : list (string * DSchema) :=
  if hasMalpractice then
    [("malpracticeReport"%string,
      obj (Some "ONLY include this object if malpractice was detected. Otherwise, omit it."%string)
        [("summary", str "A summary of the detected malpractice incidents.");
         ("impactOnScore",
          str "Explain how this behavior negatively affected their score and professional impression.")]%string)]
  else [].

Definition evaluation_schema (hasMalpractice : bool) : DSchema :=
  obj None
    ([("overallScore",
       num "A holistic score from 0 to 100, reflecting the overall performance.");
      ("criteria",
       arr "Breakdown of scores across key areas."
         (obj None
            [("name", str "e.g., 'Technical Depth', 'Communication', 'Problem-Solving'.");
             ("score", num "Score from 0 to 5 for this criterion.");
             ("maxScore", num "Always 5.");
             ("reasoning", str "Brief, specific justification for the score.")]));
      ("strengths",
       arr "2-3 specific, positive points. Use examples from their answers."
         (described T_STRING None None []));
      ("weaknesses",
       arr "2-3 critical but constructive areas of concern. Use examples."
         (described T_STRING None None []));
      ("improvements",
       arr "Actionable tips for improvement, directly linked to weaknesses."
         (described T_STRING None None []));
      ("bodyLanguageAnalysis",
       obj (Some "Analysis of non-verbal cues from the image snapshots.")
         [("posture", str "Comment on their posture (e.g., upright, slouched).");
          ("eyeContact",
           str "Analyze gaze. Are they looking at the camera or away? (e.g., 'Good, mostly focused on the camera', 'Often looked away').");
          ("gestures",
           str "Note use of hand gestures (e.g., 'Used hands effectively to explain points', 'Appeared stiff').");
          ("overallSummary",
           str "A holistic summary of their non-verbal communication and its impact.")]);
      ("verbalAnalysis",
       obj (Some "Analysis of verbal delivery based on the transcript.")
         [("clarity", str "Assess the clarity and structure of their sentences.");
          ("conciseness", str "Did they answer directly or ramble?");
          ("fillerWords",
           str "Comment on apparent use of filler words like 'um', 'uh', 'like' based on transcript flow.");
          ("overallSummary", str "A summary of their verbal communication style.")])]%string
     ++ malpracticeReport_property hasMalpractice).

Definition handleInterviewComplete_request (session0 : InterviewSession)
    (answers : array jsstring) (snapshots malpracticeLogs : gmap nat (list jsstring))
  : Request :=
  {| model := lit "gemini-2.5-flash";
     contents := parts (App.evaluation_parts (questions session0) answers snapshots);
     systemInstruction := systemInstruction_of (config session0) malpracticeLogs;
     responseMimeType := lit "application/json";
     responseSchema := evaluation_schema (hasMalpractice malpracticeLogs) |}.

End Revised.

(** ** What a displayed alert stands for *)

Module Alert.

(** The alert on display is the last entry of the log of some question. *)
Definition logged (s : Interview.State) : Prop :=
  ∀ reason, Interview.malpracticeAlert s = Some reason →
            ∃ k logs, Interview.malpracticeLogsRef s !! k = Some (logs ++ [reason]).

(** A finding of the malpractice check. *)
Definition finding : Interview.Analysis :=
  {| Interview.phoneDetected := true; Interview.suspiciousGaze := false;
     Interview.reason := lit "A phone is visible." |}.

(** Recording starts, the first malpractice check is sent, recording is
    stopped, and the check then reports a phone. *)
Definition events : list Interview.Event :=
  [Interview.ToggleRecordingClick;
   Interview.IntervalFires 2 (Some Sample.frame);
   Interview.ToggleRecordingClick;
   Interview.AnalysisSettled 0 (Parsed finding)].

Definition alerted : Interview.State :=
  Eval vm_compute in
    match Interview.run Sample.questions Interview.init events with
    | Some (s, _) => s
    | None => Interview.init
    end.

End Alert.

(** ** A sample interview *)

Module Recorded.

(** Record the first question, one snapshot is taken, stop, and press Next
    twice. *)
Definition events : list Interview.Event :=
  [Interview.ToggleRecordingClick;
   Interview.RecognitionResult
     [{| Interview.isFinal := true;
         Interview.alternative_transcript := lit "I am a developer" |}];
   Interview.IntervalFires 1 (Some Sample.frame);
   Interview.ToggleRecordingClick;
   Interview.NextQuestionClick; Interview.NextQuestionTimeout;
   Interview.NextQuestionClick; Interview.NextQuestionTimeout].

Definition completion : Interview.Completion :=
  {| Interview.completed_answers := [Some (lit "I am a developer"); Some []];
     Interview.completed_snapshots := <[0 := [Sample.frame]]> ∅;
     Interview.completed_malpracticeLogs := <[0 := []]> ∅ |}.

Definition finished : Interview.State :=
  {| Interview.currentQuestionIndex := 1;
     Interview.transcript := [];
     Interview.isRecording := false;
     Interview.isProcessing := false;
     Interview.malpracticeAlert := None;
     Interview.alertTimeouts := 0;
     Interview.pendingChecks := [];
     Interview.answersRef := [Some (lit "I am a developer"); Some []];
     Interview.snapshotsRef := <[0 := [Sample.frame]]> ∅;
     Interview.malpracticeLogsRef := <[0 := []]> ∅;
     Interview.snapshotIntervalRef := None;
     Interview.malpracticeCheckIntervalRef := None;
     Interview.window := {| Interview.intervals := ∅; Interview.next_id := 3 |} |}.

(** The state while the first recording runs. *)
Definition recording : Interview.State :=
  Interview.handleToggleRecording Interview.init.

(** The recognizer fails, the candidate records again, stops, and moves on. *)
Definition after_error_events : list Interview.Event :=
  [Interview.RecognitionError (lit "network");
   Interview.ToggleRecordingClick;
   Interview.ToggleRecordingClick;
   Interview.NextQuestionClick; Interview.NextQuestionTimeout].

Definition after_error : Interview.State :=
  Eval vm_compute in
    match Interview.run Sample.questions recording after_error_events with
    | Some (s, _) => s
    | None => Interview.init
    end.

End Recorded.

(** * Properties *)

(** ** The JavaScript values, on examples *)

Example trim_ex : trim (lit " hi there  ") = lit "hi there".
Proof. reflexivity. Qed.

Example number_ex : number_to_string 12 = lit "12".
Proof. reflexivity. Qed.

Example array_set_ex :
  array_set (A := nat) [Some 1] 3 7 = [Some 1; None; None; Some 7].
Proof. reflexivity. Qed.

Example entries_ex :
  Object_values (<[2 := 20]> (<[0 := 5]> (<[1 := 10]> (∅ : gmap nat nat))))
  = [5; 10; 20].
Proof. vm_compute. reflexivity. Qed.

Example stringify_ex :
  JSON_stringify (<[1 := []]> (<[0 := [lit "phone"; lit "a" ++ dquote]]> ∅))
  = lit "{" ++ nl
    ++ lit "  " ++ dquote ++ lit "0" ++ dquote ++ lit ": [" ++ nl
    ++ lit "    " ++ dquote ++ lit "phone" ++ dquote ++ lit "," ++ nl
    ++ lit "    " ++ dquote ++ lit "a" ++ backslash ++ dquote ++ dquote ++ nl
    ++ lit "  ]," ++ nl
    ++ lit "  " ++ dquote ++ lit "1" ++ dquote ++ lit ": []" ++ nl
    ++ lit "}".
Proof. vm_compute. reflexivity. Qed.

(** ** The question request *)

Section HomeForm.

Lemma run_snoc es e : Home.run (es ++ [e]) = Home.step (Home.run es) e.
Proof. unfold Home.run. by rewrite fold_left_app. Qed.

Lemma run_role es : Home.role (Home.run es) = Spec.selected_role es.
Proof.
  induction es as [|e es IH] using rev_ind; [done|].
  rewrite run_snoc. unfold Spec.selected_role in *.
  rewrite omap_app. destruct e as [v|v]; simpl.
  - by rewrite last_snoc.
  - by rewrite app_nil_r.
Qed.

Lemma run_difficulty es :
  Home.difficulty (Home.run es) = Spec.selected_difficulty es.
Proof.
  induction es as [|e es IH] using rev_ind; [done|].
  rewrite run_snoc. unfold Spec.selected_difficulty in *.
  rewrite omap_app. destruct e as [v|v]; simpl.
  - by rewrite app_nil_r.
  - by rewrite last_snoc.
Qed.

End HomeForm.

(** C4. Whatever was selected on the Home form before it is submitted, the
    contents of the question request that [startInterview] assembles is
    exactly ['Generate 5 interview questions for a ' ++ difficulty ++ ' ' ++
    role ++ ' position.'], with the role and the difficulty the form holds:
    the value last selected, ['Software Engineer'] and ['Medium'] when none
    was. *)
Theorem startInterview_prompt (es : list Home.Event) :
  contents (App.startInterview_request (Home.handleSubmit (Home.run es)))
  = prompt (lit "Generate 5 interview questions for a "
            ++ Spec.selected_difficulty es ++ lit " " ++ Spec.selected_role es
            ++ lit " position.").
Proof.
  unfold App.startInterview_request, Home.handleSubmit. simpl.
  by rewrite run_role, run_difficulty.
Qed.

(** The request leaves the application when the form is submitted. *)
Lemma home_submit_sends (es : list Home.Event) :
  ∃ σ, System.run System.init ((System.HomeChange <$> es) ++ [System.HomeSubmit])
       = Some (σ, [App.startInterview_request (Home.handleSubmit (Home.run es))]).
Proof.
  unfold Home.run.
  assert (H : ∀ h a p w,
    ∃ σ, System.run {| System.app := a; System.child := System.HomeC h;
                       System.pending := p; System.window := w |}
           ((System.HomeChange <$> es) ++ [System.HomeSubmit])
         = Some (σ, [App.startInterview_request
                       (Home.handleSubmit (fold_left Home.step es h))])).
  { induction es as [|e es IH]; intros h a p w.
    - by eexists.
    - destruct (IH (Home.step h e) a p w) as [σ Hσ].
      exists σ. rewrite fmap_cons. cbn [app System.run System.step System.child].
      cbn [mbind option_bind]. cbn [System.app System.pending System.window].
      rewrite Hσ. done. }
  apply H.
Qed.

Example default_prompt :
  contents (App.startInterview_request (Home.handleSubmit Home.init))
  = prompt (lit "Generate 5 interview questions for a Medium Software Engineer position.").
Proof. reflexivity. Qed.

(** ** The evaluation request *)

Section EvaluationParts.

Variable answers : array jsstring.
Variable snapshots : gmap nat (list jsstring).

Lemma or_else_placeholder i :
  or_else (array_get answers i) (lit "(No answer provided)")
  = Spec.answer_or_placeholder answers i.
Proof.
  unfold Spec.answer_or_placeholder.
  destruct (array_get answers i) as [[|c a]|]; simpl; [done| |done].
  by destruct (decide (c :: a = [])).
Qed.

(** Pushing every image of a snapshot list, one part each. *)
Lemma forEach_push_images (l : list jsstring) (i : nat) (ps : list Part) :
  App.forEach_from
    (λ ps base64Image _, App.push ps (inlineData (lit "image/jpeg") base64Image))
    l i ps
  = ps ++ (inlineData (lit "image/jpeg") <$> l).
Proof.
  revert i ps. induction l as [|x l IH]; intros i ps; simpl.
  - by rewrite app_nil_r.
  - rewrite IH. unfold App.push. by rewrite <- app_assoc.
Qed.

(** One iteration of the loop over the questions appends that question's
    block. *)
Lemma push_question_block (ps : list Part) (q : jsstring) (i : nat) :
  App.push_question answers snapshots ps q i
  = ps ++ Spec.question_block answers snapshots i q.
Proof.
  unfold App.push_question, Spec.question_block, Spec.snapshot_parts, App.push.
  rewrite or_else_placeholder.
  destruct (snapshots !! i) as [[|x l]|]; simpl.
  - by rewrite <- !app_assoc.
  - unfold App.forEach. rewrite forEach_push_images.
    by rewrite <- !app_assoc.
  - by rewrite <- !app_assoc.
Qed.

Lemma forEach_questions (qs : list jsstring) (i : nat) (ps : list Part) :
  App.forEach_from (App.push_question answers snapshots) qs i ps
  = ps ++ concat (imap (λ j, Spec.question_block answers snapshots (i + j)) qs).
Proof.
  revert i ps. induction qs as [|q qs IH]; intros i ps.
  - simpl. by rewrite app_nil_r.
  - cbn [App.forEach_from].
    rewrite IH, push_question_block, imap_cons, concat_cons.
    rewrite <- app_assoc, Nat.add_0_r.
    do 3 f_equal. apply imap_ext. intros j x _.
    unfold compose. f_equal. lia.
Qed.

End EvaluationParts.

(** C1. For every session, the evaluation request that
    [handleInterviewComplete] assembles carries, after the opening text part,
    for each question in order (index 0 to [questions.length - 1]): a text
    part with the question's number and text, a text part with the answer at
    that index (the placeholder ['(No answer provided)'] when it is missing or
    empty), the text part that announces the snapshots, and then one inline
    JPEG part per snapshot of that index when its list is not empty, the
    single text part ['(No snapshots available)'] otherwise. *)
Theorem evaluation_request_parts (session0 : InterviewSession)
    (answers : array jsstring) (snapshots malpracticeLogs : gmap nat (list jsstring)) :
  contents (App.handleInterviewComplete_request session0 answers snapshots malpracticeLogs)
  = parts (Spec.request_parts (questions session0) answers snapshots).
Proof.
  unfold App.handleInterviewComplete_request, App.evaluation_parts, App.forEach.
  simpl. f_equal. rewrite forEach_questions. done.
Qed.

Example evaluation_parts_ex :
  App.evaluation_parts [lit "Why Rocq?"; lit "Why not?"]
    [None; Some (lit "No idea")] (<[0 := [lit "AAAA"; lit "BBBB"]]> ∅)
  = [text (lit "Begin Evaluation:" ++ nl);
     text (nl ++ lit "--- Question 1: Why Rocq? ---" ++ nl);
     text (lit "Candidate's Answer: " ++ dquote ++ lit "(No answer provided)"
           ++ dquote ++ nl);
     text (lit "Body Language Snapshots during answer:" ++ nl);
     inlineData (lit "image/jpeg") (lit "AAAA");
     inlineData (lit "image/jpeg") (lit "BBBB");
     text (nl ++ lit "--- Question 2: Why not? ---" ++ nl);
     text (lit "Candidate's Answer: " ++ dquote ++ lit "No idea" ++ dquote ++ nl);
     text (lit "Body Language Snapshots during answer:" ++ nl);
     text (lit "(No snapshots available)" ++ nl)].
Proof. vm_compute. reflexivity. Qed.

(** The request leaves the application when the Interview component reports
    its completion. *)
Lemma interview_complete_sends questions c σ i session0 :
  App.session (System.app σ) = Some session0 →
  (System.interview_complete questions c σ i).2
  = Some (App.handleInterviewComplete_request (App.declared session0 questions)
            (Interview.completed_answers c) (Interview.completed_snapshots c)
            (Interview.completed_malpracticeLogs c)).
Proof. intros Hs. unfold System.interview_complete. by rewrite Hs. Qed.

(** ** The system instruction *)

Section MalpracticeLogs.

Variable malpracticeLogs : gmap nat (list jsstring).

Lemma elem_of_Object_values {V} (o : gmap nat V) (v : V) :
  v ∈ Object_values o ↔ ∃ k, o !! k = Some v.
Proof.
  unfold Object_values, Object_entries.
  rewrite merge_sort_Permutation, list_elem_of_fmap. split.
  - intros [[k v'] [-> Hin]]. exists k. by apply elem_of_map_to_list.
  - intros [k Hk]. exists (k, v). split; [done|]. by apply elem_of_map_to_list.
Qed.

(** [Object.values(malpracticeLogs).some(logs => logs.length > 0)]. *)
Lemma some_log_nonempty :
  some (λ logs, 0 <? length logs) (Object_values malpracticeLogs) = true
  ↔ ∃ k logs, malpracticeLogs !! k = Some logs ∧ logs ≠ [].
Proof.
  unfold some. rewrite existsb_exists. split.
  - intros [logs [Hin Hlen]]. apply list_elem_of_In, elem_of_Object_values in Hin.
    destruct Hin as [k Hk]. exists k, logs. split; [done|].
    intros ->. discriminate Hlen.
  - intros (k & logs & Hk & Hne). exists logs. split.
    + apply list_elem_of_In, elem_of_Object_values. by exists k.
    + destruct logs; [done|]. reflexivity.
Qed.

Lemma no_log_nonempty :
  some (λ logs, 0 <? length logs) (Object_values malpracticeLogs) = false
  ↔ ∀ k logs, malpracticeLogs !! k = Some logs → logs = [].
Proof.
  rewrite <- not_true_iff_false, some_log_nonempty. split.
  - intros Hno k logs Hk. destruct logs as [|x logs]; [done|].
    exfalso. apply Hno. by exists k, (x :: logs).
  - intros Hall (k & logs & Hk & Hne). by apply Hne, (Hall k).
Qed.

Lemma malpractice_text_nonempty : Spec.malpractice_text malpracticeLogs ≠ [].
Proof. unfold Spec.malpractice_text, nl. discriminate. Qed.

End MalpracticeLogs.

(** C10. The system instruction that [handleInterviewComplete] assembles is
    the base evaluation instruction followed by the malpractice-analysis text
    (which ends with the JSON-serialized malpractice logs) if and only if the
    log list of at least one question is non-empty, and it is the base
    instruction with the empty string appended if and only if every log list
    is empty. *)
Theorem systemInstruction_malpractice (session0 : InterviewSession)
    (answers : array jsstring) (snapshots malpracticeLogs : gmap nat (list jsstring)) :
  let instruction :=
    systemInstruction
      (App.handleInterviewComplete_request session0 answers snapshots malpracticeLogs) in
  ((∃ k logs, malpracticeLogs !! k = Some logs ∧ logs ≠ [])
   ↔ instruction
     = Some (App.baseInstruction (config session0)
             ++ Spec.malpractice_text malpracticeLogs))
  ∧ ((∀ k logs, malpracticeLogs !! k = Some logs → logs = [])
     ↔ instruction = Some (App.baseInstruction (config session0) ++ [])).
Proof.
  cbn [systemInstruction App.handleInterviewComplete_request].
  unfold App.systemInstruction_of, App.malpracticeLogText.
  rewrite <- some_log_nonempty, <- no_log_nonempty.
  destruct (some _ _) eqn:Hsome; (split; split); intros H; try done.
  - inversion H as [H']. apply app_inv_head in H'.
    by apply malpractice_text_nonempty in H'.
  - inversion H as [H']. apply app_inv_head in H'. symmetry in H'.
    by apply malpractice_text_nonempty in H'.
Qed.

(** ** Failures of the API calls *)

Section Failures.

Lemma startInterview_try_failed config r s :
  Spec.generation_failed r → ∃ ex, App.startInterview_try config r s = inr ex.
Proof.
  intros [| |v Hv|v Hv]; unfold App.startInterview_try; try rewrite Hv; eauto.
Qed.

Lemma handleInterviewComplete_try_failed session0 answers snapshots logs r s :
  Spec.evaluation_failed r →
  ∃ ex, App.handleInterviewComplete_try session0 answers snapshots logs r s = inr ex.
Proof. intros []; simpl; eauto. Qed.

(** What [startInterview] leaves behind when its [catch] runs. *)
Lemma startInterview_resume_failed config r s :
  Spec.generation_failed r →
  App.startInterview_resume config r s
  = App.setAppState HOME
      (App.setError
         (Some (lit "Could not generate questions. Please check your API key and try again."))
         s).
Proof.
  intros H. unfold App.startInterview_resume.
  by destruct (startInterview_try_failed config r s H) as [ex ->].
Qed.

Lemma handleInterviewComplete_resume_failed session0 answers snapshots logs r s :
  Spec.evaluation_failed r →
  App.handleInterviewComplete_resume session0 answers snapshots logs r s
  = App.setAppState HOME
      (App.setError
         (Some (lit "An error occurred during evaluation. Please try another interview."))
         s).
Proof.
  intros H. unfold App.handleInterviewComplete_resume.
  by destruct (handleInterviewComplete_try_failed session0 answers snapshots logs r s H)
    as [ex ->].
Qed.

(** A pending call settles whatever child is mounted. *)
Lemma step_QuestionsSettled σ config r :
  System.pending σ = Some (System.AwaitQuestions config) →
  System.step σ (System.QuestionsSettled r)
  = Some (System.render (App.startInterview_resume config r (System.app σ))
            (System.child σ) (System.window σ) None, None).
Proof. intros Hp. unfold System.step. rewrite Hp. by destruct (System.child σ). Qed.

Lemma step_EvaluationSettled σ session0 answers snapshots logs r :
  System.pending σ = Some (System.AwaitEvaluation session0 answers snapshots logs) →
  System.step σ (System.EvaluationSettled r)
  = Some (System.render
            (App.handleInterviewComplete_resume session0 answers snapshots logs r
               (System.app σ))
            (System.child σ) (System.window σ) None, None).
Proof. intros Hp. unfold System.step. rewrite Hp. by destruct (System.child σ). Qed.

End Failures.

(** C2. When an API call of the running application fails (the question
    request: the SDK throws, the response does not parse, or it parses
    without [questions] or with an empty array; the evaluation request: the
    SDK throws or the response does not parse), the application handles the
    failure, sets a non-null error message and moves to ['HOME'], where it
    renders the Home screen with that message: it is neither left in
    ['LOADING'] nor taken to ['INTERVIEW'] or ['REPORT'], and that call is
    no longer pending. *)
Theorem api_failure_goes_home (σ : System.State) (e : System.Event) :
  Spec.api_failure σ e →
  ∃ σ' message,
    System.step σ e = Some (σ', None)
    ∧ App.appState (System.app σ') = HOME
    ∧ App.error (System.app σ') = Some message
    ∧ App.renderContent (System.app σ') = App.HomeView (Some message)
    ∧ System.pending σ' = None.
Proof.
  intros [config r Hp Hr | session0 answers snapshots logs r Hp Hr].
  - rewrite (step_QuestionsSettled _ _ _ Hp).
    rewrite (startInterview_resume_failed _ _ _ Hr).
    by eexists _, _.
  - rewrite (step_EvaluationSettled _ _ _ _ _ _ Hp).
    rewrite (handleInterviewComplete_resume_failed _ _ _ _ _ _ Hr).
    by eexists _, _.
Qed.

(** A failed question request, right after the Home form is submitted. *)
Lemma api_failure_goes_home_witness :
  Spec.api_failure Sample.awaiting_questions (System.QuestionsSettled Unparsable)
  ∧ ∃ σ' message,
      System.step Sample.awaiting_questions (System.QuestionsSettled Unparsable)
      = Some (σ', None)
      ∧ App.appState (System.app σ') = HOME
      ∧ App.error (System.app σ') = Some message
      ∧ App.renderContent (System.app σ') = App.HomeView (Some message)
      ∧ System.pending σ' = None.
Proof.
  assert (H : Spec.api_failure Sample.awaiting_questions
                (System.QuestionsSettled Unparsable)).
  { eapply Spec.startInterview_fails; [reflexivity | constructor]. }
  split; [exact H | exact (api_failure_goes_home _ _ H)].
Defined.

Example awaiting_questions_run :
  System.run System.init [System.HomeSubmit]
  = Some (Sample.awaiting_questions,
          [App.startInterview_request (Home.handleSubmit Home.init)]).
Proof. reflexivity. Qed.

(** ** The session across a call *)

(** C8 does not hold as stated: the variable [questions] is untyped and the
    guard only asks that it be truthy and that its [length] not be 0.  A
    response whose [questions] is the empty object passes it, so a new
    session is stored, and the state becomes ['INTERVIEW'], although no
    array of questions was obtained. *)
Lemma session_without_questions_array :
  let s := App.startInterview_begin App.init in
  let s' := App.startInterview_resume (Home.handleSubmit Home.init)
              (Parsed Sample.untyped_response) s in
  get Sample.untyped_response (lit "questions") = Value (JObject [])
  ∧ App.session s = None
  ∧ App.session s'
    = Some {| config := Home.handleSubmit Home.init; questions := JObject [];
              answers := []; snapshots := ∅; malpracticeLogs := Some ∅;
              evaluation := None |}
  ∧ App.appState s' = INTERVIEW
  ∧ ∀ elements, JObject [] ≠ JArray elements.
Proof. vm_compute. repeat split; discriminate. Qed.

(** C8, amended. A failure leaves the session as it was.  If the question
    request fails, the session after [startInterview] is the one before it,
    and whenever [startInterview] does replace the session, a response was
    parsed whose [questions] passes the guard: it is truthy and its [length]
    is not 0, so that an array is a non-empty one; the new session holds
    that value.  If the evaluation request fails, the session after
    [handleInterviewComplete] is the one before it, and whenever the session
    is replaced, a response was parsed and the new session is the old one
    with the answers, the snapshots, the malpractice logs and that
    evaluation. *)
Theorem failure_keeps_session (s : App.State) :
  (∀ config r,
     Spec.generation_failed r →
     App.session (App.startInterview_resume config r (App.startInterview_begin s))
     = App.session s)
  ∧ (∀ config r,
       App.session (App.startInterview_resume config r (App.startInterview_begin s))
       = App.session s
       ∨ ∃ v value,
           r = Parsed v
           ∧ get v (lit "questions") = Value value
           ∧ truthy value = true
           ∧ length_is_zero value = false
           ∧ (∀ elements, value = JArray elements → elements ≠ [])
           ∧ App.session (App.startInterview_resume config r (App.startInterview_begin s))
             = Some {| config := config; questions := value; answers := [];
                       snapshots := ∅; malpracticeLogs := Some ∅;
                       evaluation := None |})
  ∧ (∀ session0 answers snapshots malpracticeLogs r,
       Spec.evaluation_failed r →
       App.session
         (App.handleInterviewComplete_resume session0 answers snapshots malpracticeLogs r
            (App.handleInterviewComplete_begin s))
       = App.session s)
  ∧ (∀ session0 answers snapshots malpracticeLogs r,
       App.session
         (App.handleInterviewComplete_resume session0 answers snapshots malpracticeLogs r
            (App.handleInterviewComplete_begin s))
       = App.session s
       ∨ ∃ evaluationResult,
           r = Parsed evaluationResult
           ∧ App.session
               (App.handleInterviewComplete_resume session0 answers snapshots
                  malpracticeLogs r (App.handleInterviewComplete_begin s))
             = Some {| config := config session0; questions := questions session0;
                       answers := answers; snapshots := snapshots;
                       malpracticeLogs := Some malpracticeLogs;
                       evaluation := Some evaluationResult |}).
Proof.
  assert (Hbegin : App.session (App.handleInterviewComplete_begin s) = App.session s).
  { unfold App.handleInterviewComplete_begin. by destruct (App.session s) eqn:E. }
  repeat split.
  - intros config r Hr. by rewrite (startInterview_resume_failed _ _ _ Hr).
  - intros config [| |v]; try (by left).
    unfold App.startInterview_resume, App.startInterview_try.
    destruct (get v (lit "questions")) as [| |value] eqn:Hget; try (by left).
    destruct (truthy value) eqn:Htruthy; cbn [negb orb]; [|by left].
    destruct (length_is_zero value) eqn:Hlength; [by left|].
    right. exists v, value. repeat split; try done.
    intros elements -> ->. discriminate Hlength.
  - intros session0 answers snapshots logs r Hr.
    by rewrite (handleInterviewComplete_resume_failed _ _ _ _ _ _ Hr).
  - intros session0 answers snapshots logs [| |ev]; try (by left).
    right. by exists ev.
Qed.

Lemma failure_keeps_session_witness :
  App.session
    (App.startInterview_resume (Home.handleSubmit Home.init)
       (Parsed (JObject [(lit "questions", JArray [])]))
       (App.startInterview_begin Sample.interviewing))
  = Some Sample.session0
  ∧ App.session
      (App.handleInterviewComplete_resume Sample.session0 [] ∅ ∅ SdkError
         (App.handleInterviewComplete_begin Sample.interviewing))
    = Some Sample.session0.
Proof.
  destruct (failure_keeps_session Sample.interviewing) as (H1 & _ & H3 & _).
  split.
  - apply H1. by apply Spec.questions_empty.
  - apply H3. constructor.
Defined.

(** ** The report *)

(** C7. A parsed evaluation is stored in the session and the state becomes
    ['REPORT'], which then renders the report.  [renderContent] renders the
    Report screen exactly when the state is ['REPORT'] and the session has an
    evaluation, and in ['REPORT'] without one it renders the Home screen with
    the error ['Failed to load the report.']. *)
Theorem report_iff_evaluation (s : App.State) :
  (∀ session0 answers snapshots malpracticeLogs evaluationResult,
     let s' := App.handleInterviewComplete_resume session0 answers snapshots
                 malpracticeLogs (Parsed evaluationResult) s in
     App.session s' ≫= evaluation = Some evaluationResult
     ∧ App.appState s' = REPORT
     ∧ App.renderContent s' = App.ReportView evaluationResult)
  ∧ (∀ report,
       App.renderContent s = App.ReportView report
       ↔ App.appState s = REPORT ∧ App.session s ≫= evaluation = Some report)
  ∧ (App.appState s = REPORT → App.session s ≫= evaluation = None →
     App.renderContent s = App.HomeView (Some (lit "Failed to load the report."))).
Proof.
  repeat split.
  - unfold App.renderContent in H.
    destruct (App.appState s); try done.
    destruct (App.session s) as [session0|]; [|done].
    by destruct (truthy (questions session0)).
  - unfold App.renderContent in H.
    destruct (App.appState s), (App.session s ≫= evaluation) eqn:He;
      try done;
      try (destruct (App.session s) as [session0|]; [|done];
           by destruct (truthy (questions session0))).
    by inversion H.
  - intros [Hst Hev]. unfold App.renderContent. by rewrite Hst, Hev.
  - intros Hst Hev. unfold App.renderContent. by rewrite Hst, Hev.
Qed.

Lemma report_iff_evaluation_witness :
  App.appState Sample.report_without_evaluation = REPORT
  ∧ App.session Sample.report_without_evaluation ≫= evaluation = None
  ∧ App.renderContent Sample.report_without_evaluation
    = App.HomeView (Some (lit "Failed to load the report.")).
Proof.
  split; [reflexivity|]. split; [reflexivity|].
  apply (report_iff_evaluation Sample.report_without_evaluation); reflexivity.
Defined.

(** ** The screens of the running application *)

Section Screens.

Lemma reconcile_idemp c w w' v :
  System.reconcile c w v = System.reconcile (System.reconcile c w v) w' v.
Proof. by destruct v, c. Qed.

Lemma render_consistent a c w p :
  (is_Some p → App.appState a = LOADING) → System.consistent (System.render a c w p).
Proof. intros H. split; [apply reconcile_idemp | done]. Qed.

Lemma render_settled a c w : System.consistent (System.render a c w None).
Proof. apply render_consistent. by intros [? ?]. Qed.

(** What [renderContent] shows as the Interview is the [questions] of the
    session. *)
Lemma InterviewView_session a value :
  App.renderContent a = App.InterviewView value →
  ∃ session0, App.session a = Some session0 ∧ questions session0 = value.
Proof.
  unfold App.renderContent. destruct (App.appState a); try done.
  - destruct (App.session a) as [session0|]; [|done].
    destruct (truthy (questions session0)); [|done]. intros [= <-]. by eexists.
  - by destruct (App.session a ≫= evaluation).
Qed.

Lemma handleInterviewComplete_begin_loading a session0 :
  App.session a = Some session0 →
  App.appState (App.handleInterviewComplete_begin a) = LOADING.
Proof. intros Hs. unfold App.handleInterviewComplete_begin. by rewrite Hs. Qed.

(** No handler of [App] is suspended while a screen is mounted. *)
Lemma screen_not_pending σ :
  System.consistent σ → System.child σ ≠ System.LoadingC → System.pending σ = None.
Proof.
  intros [Hchild Hpending] Hc. destruct (System.pending σ) as [p|] eqn:Hp; [|done].
  assert (Hl : App.appState (System.app σ) = LOADING) by (apply Hpending; by eexists).
  unfold App.renderContent in Hchild. rewrite Hl in Hchild.
  destruct Hc. rewrite Hchild. by destruct (System.child σ).
Qed.

Lemma step_consistent σ e σ' q :
  System.consistent σ → System.step σ e = Some (σ', q) → System.consistent σ'.
Proof.
  intros Hσ Hstep. pose proof Hσ as [Hchild Hpending].
  unfold System.step in Hstep.
  destruct e as [e| |r|e|c request|r|].
  - destruct (System.child σ) as [h| |i|] eqn:Hc; simplify_eq.
    split; [|done]. simpl.
    destruct (App.renderContent (System.app σ)); simplify_eq; done.
  - destruct (System.child σ) as [h| |i|] eqn:Hc; simplify_eq.
    by apply render_consistent.
  - destruct (System.pending σ) as [[config|]|] eqn:Hp;
      destruct (System.child σ); simplify_eq; apply render_settled.
  - destruct (System.child σ) as [h| |i|] eqn:Hc; simplify_eq.
    destruct (App.renderContent (System.app σ)) as [| |value|] eqn:Hv;
      simplify_eq.
    destruct (string_array value) as [questions|];
      cbn [mbind option_bind] in Hstep; [|done].
    destruct (InterviewView_session _ _ Hv) as (session0 & Hs & _).
    destruct (Interview.step questions i e) as [[i' [c|]]|];
      cbn [mbind option_bind] in Hstep; [| |done].
    + unfold System.interview_complete in Hstep. rewrite Hs in Hstep.
      simplify_eq. apply render_consistent. intros _.
      by eapply handleInterviewComplete_begin_loading.
    + simplify_eq. split; [|done]. simpl. by rewrite Hv.
  - destruct (System.child σ) as [h| |i|] eqn:Hc; simplify_eq.
    destruct (App.renderContent (System.app σ)) as [| |value|] eqn:Hv;
      simplify_eq.
    destruct (string_array value); [done|].
    unfold System.untyped_complete in Hstep.
    destruct (InterviewView_session _ _ Hv) as (session0 & Hs & _).
    rewrite Hs in Hstep.
    assert (Hnone : System.pending σ = None).
    { apply screen_not_pending; [done|]. by rewrite Hc. }
    destruct value, request; simplify_eq;
      apply render_consistent; rewrite ?Hnone;
      first [by intros [? ?]
            | intros _; by eapply handleInterviewComplete_begin_loading].
  - destruct (System.pending σ) as [[|session0 answers snapshots logs]|] eqn:Hp;
      destruct (System.child σ); simplify_eq; apply render_settled.
  - destruct (System.child σ) as [h| |i|] eqn:Hc; simplify_eq.
    apply render_consistent.
    rewrite (screen_not_pending σ Hσ) by (by rewrite Hc). by intros [? ?].
Qed.

Lemma run_consistent es σ σ' qs :
  System.consistent σ → System.run σ es = Some (σ', qs) → System.consistent σ'.
Proof.
  revert σ qs. induction es as [|e es IH]; intros σ qs Hσ Hrun.
  - by simplify_eq/=.
  - simpl in Hrun.
    destruct (System.step σ e) as [[σ1 q]|] eqn:Hstep; simplify_eq/=.
    destruct (System.run σ1 es) as [[σ2 qs2]|] eqn:Hrun'; simplify_eq/=.
    eapply IH; [|done]. by eapply step_consistent.
Qed.

Lemma init_consistent : System.consistent System.init.
Proof. split; [done | by intros [? ?]]. Qed.

End Screens.

(** C3 does not hold as stated: right after the Home form is submitted the
    state is ['LOADING'], which [renderContent] renders as the loading view
    and not as one of the three screens. *)
Lemma loading_is_not_a_screen :
  System.reachable Sample.awaiting_questions
  ∧ App.appState (System.app Sample.awaiting_questions) = LOADING
  ∧ App.renderContent (System.app Sample.awaiting_questions)
    = App.LoadingView (lit "Generating your interview questions...")
  ∧ System.is_screen (App.renderContent (System.app Sample.awaiting_questions)) = false.
Proof.
  split; [|done].
  by exists [System.HomeSubmit],
            [App.startInterview_request (Home.handleSubmit Home.init)].
Qed.

(** C3, amended. The screen state is wiring between three screens (home,
    interview, report) and a loading view: every reachable value of
    [appState] rendered by [renderContent] is one of the three screens,
    except ['LOADING'], which is rendered as the loading view with the
    loading message. *)
Theorem screen_or_loading (σ : System.State) :
  System.reachable σ →
  (App.appState (System.app σ) ≠ LOADING
   ∧ System.is_screen (App.renderContent (System.app σ)) = true)
  ∨ (App.appState (System.app σ) = LOADING
     ∧ App.renderContent (System.app σ)
       = App.LoadingView (App.loadingMessage (System.app σ))).
Proof.
  intros _. unfold App.renderContent.
  destruct (App.appState (System.app σ)).
  - by left.
  - left. split; [done|].
    destruct (App.session (System.app σ)) as [session0|]; [|done].
    by destruct (truthy (questions session0)).
  - left. split; [done|]. by destruct (App.session (System.app σ) ≫= evaluation).
  - by right.
Qed.

Lemma screen_or_loading_witness :
  System.reachable Sample.awaiting_questions
  ∧ ((App.appState (System.app Sample.awaiting_questions) ≠ LOADING
      ∧ System.is_screen (App.renderContent (System.app Sample.awaiting_questions)) = true)
     ∨ (App.appState (System.app Sample.awaiting_questions) = LOADING
        ∧ App.renderContent (System.app Sample.awaiting_questions)
          = App.LoadingView (App.loadingMessage (System.app Sample.awaiting_questions)))).
Proof.
  assert (H : System.reachable Sample.awaiting_questions).
  { exists [System.HomeSubmit],
           [App.startInterview_request (Home.handleSubmit Home.init)].
    reflexivity. }
  split; [exact H | exact (screen_or_loading _ H)].
Defined.

(** ** The transcript *)

Section Transcript.

(** Reading back what was just assigned, also past the end of the array. *)
Lemma array_get_set {A} (a : array A) (i : nat) (v : A) :
  array_get (array_set a i v) i = Some v.
Proof.
  unfold array_get, array_set. destruct (decide (i < length a)) as [Hlt|Hge].
  - by rewrite list_lookup_insert_eq.
  - rewrite app_assoc.
    rewrite (list_lookup_middle _ [] (Some v) i); [done|].
    rewrite length_app, length_replicate. lia.
Qed.

(** The loop of [onresult] from any value of its two variables. *)
Lemma onresult_loop_from (results : list Interview.SpeechRecognitionResult)
    (finalTranscript interimTranscript : jsstring) :
  fold_left
    (λ '(finalTranscript, interimTranscript) r,
       let transcriptPart := Interview.alternative_transcript r in
       if Interview.isFinal r
       then (finalTranscript ++ transcriptPart ++ lit " ", interimTranscript)
       else (finalTranscript, transcriptPart))
    results (finalTranscript, interimTranscript)
  = (finalTranscript ++ Spec.finalized results,
     default interimTranscript
       (last (Interview.alternative_transcript
              <$> filter (λ r, Interview.isFinal r = false) results))).
Proof.
  revert finalTranscript interimTranscript.
  induction results as [|r results IH]; intros finalTranscript interimTranscript.
  - unfold Spec.finalized. simpl. by rewrite app_nil_r.
  - cbn [fold_left]. destruct (Interview.isFinal r) eqn:Hfinal; rewrite IH.
    + unfold Spec.finalized.
      rewrite (filter_cons_True (λ r, Interview.isFinal r = true)) by done.
      rewrite (filter_cons_False (λ r, Interview.isFinal r = false)) by congruence.
      rewrite fmap_cons, concat_cons. by rewrite <- !app_assoc.
    + unfold Spec.finalized.
      rewrite (filter_cons_False (λ r, Interview.isFinal r = true)) by congruence.
      rewrite (filter_cons_True (λ r, Interview.isFinal r = false)) by done.
      rewrite fmap_cons, last_cons. by destruct (last _).
Qed.

Lemma onresult_loop_spec results :
  Interview.onresult_loop results
  = (Spec.finalized results, Spec.latest_interim results).
Proof. unfold Interview.onresult_loop. by rewrite onresult_loop_from. Qed.

End Transcript.

(** C6. On every speech-recognition result event the handler runs and
    stores, as the answer at the current question index, the concatenation
    of the finalized transcript parts, each followed by a space, trimmed;
    the displayed transcript becomes that text, a space, and the latest
    part that is not final. *)
Theorem onresult_transcript (questions : list jsstring) (s : Interview.State)
    (results : list Interview.SpeechRecognitionResult) :
  let s' := Interview.onresult results s in
  Interview.step questions s (Interview.RecognitionResult results) = Some (s', None)
  ∧ array_get (Interview.answersRef s') (Interview.currentQuestionIndex s)
    = Some (trim (Spec.finalized results))
  ∧ Interview.transcript s'
    = trim (Spec.finalized results) ++ lit " " ++ Spec.latest_interim results
  ∧ Interview.currentQuestionIndex s' = Interview.currentQuestionIndex s.
Proof.
  unfold Interview.onresult. rewrite onresult_loop_spec.
  cbn [Interview.answersRef Interview.transcript Interview.currentQuestionIndex].
  split; [|split; [apply array_get_set | done]].
  cbn [Interview.step]. unfold Interview.onresult. by rewrite onresult_loop_spec.
Qed.

Example onresult_ex :
  let s := Interview.onresult
             [{| Interview.isFinal := true; Interview.alternative_transcript := lit "I am" |};
              {| Interview.isFinal := true; Interview.alternative_transcript := lit " a developer" |};
              {| Interview.isFinal := false; Interview.alternative_transcript := lit " who lik" |}]
             Interview.init in
  Interview.answersRef s = [Some (lit "I am  a developer")]
  ∧ Interview.transcript s = lit "I am  a developer  who lik".
Proof. vm_compute. done. Qed.

(** The first mount is a mount in a window without timers. *)
Example mount_first :
  Interview.mount {| Interview.intervals := ∅; Interview.next_id := 1 |}
  = Interview.init.
Proof. reflexivity. Qed.

(** ** The question index *)

Section QuestionIndex.

Variable questions : list jsstring.

Lemma handleToggleRecording_index s :
  Interview.currentQuestionIndex (Interview.handleToggleRecording s)
  = Interview.currentQuestionIndex s.
Proof. unfold Interview.handleToggleRecording. by destruct (Interview.isRecording s). Qed.

Lemma handleNextQuestion_begin_index s :
  Interview.currentQuestionIndex (Interview.handleNextQuestion_begin s)
  = Interview.currentQuestionIndex s.
Proof.
  unfold Interview.handleNextQuestion_begin. cbn [Interview.currentQuestionIndex].
  destruct (Interview.isRecording s); [apply handleToggleRecording_index | done].
Qed.

(** The branch of [handleNextQuestion] taken below the last question. *)
Lemma handleNextQuestion_resume_below s :
  Interview.currentQuestionIndex s < length questions - 1 →
  ∃ s', Interview.handleNextQuestion_resume questions s = (s', None)
        ∧ Interview.currentQuestionIndex s' = Interview.currentQuestionIndex s + 1.
Proof.
  intros Hlt. unfold Interview.handleNextQuestion_resume.
  destruct (Z.ltb_spec (Z.of_nat (Interview.currentQuestionIndex s))
              (Z.of_nat (length questions) - 1)); [|lia].
  by eexists.
Qed.

(** The branch taken at the last question, or past it. *)
Lemma handleNextQuestion_resume_last s :
  length questions - 1 ≤ Interview.currentQuestionIndex s →
  questions ≠ [] →
  ∃ s', Interview.handleNextQuestion_resume questions s
        = (s', Some {| Interview.completed_answers := Interview.answersRef s;
                       Interview.completed_snapshots := Interview.snapshotsRef s;
                       Interview.completed_malpracticeLogs :=
                         Interview.malpracticeLogsRef s |})
        ∧ Interview.currentQuestionIndex s' = Interview.currentQuestionIndex s.
Proof.
  intros Hge Hne. unfold Interview.handleNextQuestion_resume.
  assert (0 < length questions) by (destruct questions; [done | simpl; lia]).
  destruct (Z.ltb_spec (Z.of_nat (Interview.currentQuestionIndex s))
              (Z.of_nat (length questions) - 1)); [lia|].
  by eexists.
Qed.

Lemma step_index s e s' c :
  questions ≠ [] →
  Interview.currentQuestionIndex s < length questions →
  Interview.step questions s e = Some (s', c) →
  Interview.currentQuestionIndex s' < length questions.
Proof.
  intros Hne Hlt Hstep. destruct e as [| | |results|error|id frame|n r|];
    cbn [Interview.step] in Hstep.
  - destruct (Interview.isProcessing s); simplify_eq.
    by rewrite handleToggleRecording_index.
  - destruct (Interview.isProcessing s || Interview.isRecording s); simplify_eq.
    by rewrite handleNextQuestion_begin_index.
  - destruct (Interview.isProcessing s); simplify_eq.
    destruct (decide (Interview.currentQuestionIndex s < length questions - 1))
      as [Hbelow|Hlast].
    + destruct (handleNextQuestion_resume_below s Hbelow) as (s1 & Hs1 & Hi).
      rewrite Hs1 in Hstep. simplify_eq. lia.
    + destruct (handleNextQuestion_resume_last s) as (s1 & Hs1 & Hi); [lia|done|].
      rewrite Hs1 in Hstep. simplify_eq. lia.
  - simplify_eq. unfold Interview.onresult.
    by destruct (Interview.onresult_loop results).
  - simplify_eq. unfold Interview.onerror. by destruct (decide _).
  - destruct (Interview.intervals (Interview.window s) !! id)
      as [[[index|index|] ms]|]; simplify_eq.
    + unfold Interview.run_captureSnapshot. by destruct frame.
    + unfold Interview.analyzeFrameForMalpractice_begin. by destruct frame.
    + done.
  - destruct (Interview.pendingChecks s !! n) as [index|]; simplify_eq.
    unfold Interview.analyzeFrameForMalpractice_resume.
    destruct r as [| |result]; try done.
    by destruct (Interview.phoneDetected result || Interview.suspiciousGaze result).
  - destruct (Interview.alertTimeouts s); by simplify_eq.
Qed.

Lemma run_index es s s' cs :
  questions ≠ [] →
  Interview.currentQuestionIndex s < length questions →
  Interview.run questions s es = Some (s', cs) →
  Interview.currentQuestionIndex s' < length questions.
Proof.
  intros Hne. revert s cs. induction es as [|e es IH]; intros s cs Hlt Hrun.
  - by simplify_eq/=.
  - cbn [Interview.run] in Hrun.
    destruct (Interview.step questions s e) as [[s1 c]|] eqn:Hstep;
      cbn [mbind option_bind] in Hrun; [|done].
    destruct (Interview.run questions s1 es) as [[s2 cs2]|] eqn:Hrun';
      cbn [mbind option_bind] in Hrun; simplify_eq.
    eapply IH; [|done]. by eapply step_index.
Qed.

End QuestionIndex.

(** C9. For a non-empty question list, [currentQuestionIndex] starts at 0
    and, in every state the mounted component reaches, lies in
    [0 .. questions.length - 1].  There [handleNextQuestion] does not touch
    it before its [await]; after it, strictly below [questions.length - 1]
    it adds one and reports nothing, and at [questions.length - 1] it leaves
    it and calls [onInterviewComplete] with the collected answers, snapshots
    and malpractice logs. *)
Theorem currentQuestionIndex_in_range (questions : list jsstring)
    (s : Interview.State) :
  questions ≠ [] →
  Interview.reachable questions s →
  Interview.currentQuestionIndex Interview.init = 0
  ∧ Interview.currentQuestionIndex s ≤ length questions - 1
  ∧ Interview.currentQuestionIndex (Interview.handleNextQuestion_begin s)
    = Interview.currentQuestionIndex s
  ∧ (Interview.currentQuestionIndex s < length questions - 1 →
     ∃ s', Interview.handleNextQuestion_resume questions s = (s', None)
           ∧ Interview.currentQuestionIndex s' = Interview.currentQuestionIndex s + 1)
  ∧ (Interview.currentQuestionIndex s = length questions - 1 →
     ∃ s', Interview.handleNextQuestion_resume questions s
           = (s', Some {| Interview.completed_answers := Interview.answersRef s;
                          Interview.completed_snapshots := Interview.snapshotsRef s;
                          Interview.completed_malpracticeLogs :=
                            Interview.malpracticeLogsRef s |})
           ∧ Interview.currentQuestionIndex s' = Interview.currentQuestionIndex s).
Proof.
  intros Hne (es & cs & Hrun).
  assert (Hlen : 0 < length questions) by (destruct questions; [done | simpl; lia]).
  assert (Hs : Interview.currentQuestionIndex s < length questions).
  { eapply run_index; [done| |done]. done. }
  split; [done|]. split; [lia|]. split; [apply handleNextQuestion_begin_index|].
  split.
  - apply handleNextQuestion_resume_below.
  - intros Heq. apply handleNextQuestion_resume_last; [lia | done].
Qed.

Lemma currentQuestionIndex_in_range_witness :
  Sample.questions ≠ []
  ∧ Interview.reachable Sample.questions Sample.at_last_question
  ∧ Interview.currentQuestionIndex Sample.at_last_question ≤ length Sample.questions - 1
  ∧ ∃ s', Interview.handleNextQuestion_resume Sample.questions Sample.at_last_question
          = (s', Some {| Interview.completed_answers := [Some []];
                         Interview.completed_snapshots := ∅;
                         Interview.completed_malpracticeLogs := ∅ |})
          ∧ Interview.currentQuestionIndex s' = 1.
Proof.
  assert (Hne : Sample.questions ≠ []) by discriminate.
  assert (Hr : Interview.reachable Sample.questions Sample.at_last_question).
  { exists [Interview.NextQuestionClick; Interview.NextQuestionTimeout], [].
    reflexivity. }
  destruct (currentQuestionIndex_in_range _ _ Hne Hr) as (_ & Hle & _ & _ & Hlast).
  split; [exact Hne|]. split; [exact Hr|]. split; [exact Hle|].
  exact (Hlast eq_refl).
Defined.

(** ** The snapshot interval *)

Section Capture.

Variable questions : list jsstring.

(** Starting to record installs the 5000 ms snapshot interval for the
    current question and keeps its id. *)
Lemma start_recording_installs s :
  Interview.isRecording s = false →
  let s' := Interview.handleToggleRecording s in
  Interview.isRecording s' = true
  ∧ Interview.snapshotIntervalRef s' = Some (Interview.next_id (Interview.window s))
  ∧ Interview.intervals (Interview.window s') !! Interview.next_id (Interview.window s)
    = Some {| Interview.callback :=
                Interview.captureSnapshot (Interview.currentQuestionIndex s);
              Interview.delay := 5000 |}.
Proof.
  intros Hoff. unfold Interview.handleToggleRecording. rewrite Hoff.
  cbn. split; [done|]. split; [done|].
  rewrite lookup_insert_ne by lia. by rewrite lookup_insert_eq.
Qed.

(** An installed snapshot interval that fires with a frame appends it to the
    list of the question it was installed for. *)
Lemma capture_appends s id index ms frame :
  Interview.intervals (Interview.window s) !! id
  = Some {| Interview.callback := Interview.captureSnapshot index;
            Interview.delay := ms |} →
  ∃ s', Interview.step questions s (Interview.IntervalFires id (Some frame))
        = Some (s', None)
        ∧ Interview.snapshotsRef s' !! index
          = Some (default [] (Interview.snapshotsRef s !! index) ++ [frame])
        ∧ Interview.isRecording s' = Interview.isRecording s.
Proof.
  intros Hid. cbn [Interview.step]. rewrite Hid. eexists. split; [done|].
  cbn. unfold push_at. by rewrite lookup_insert_eq.
Qed.

Lemma clear_if_set_empty ref w :
  Interview.intervals w = ∅ →
  Interview.intervals (Interview.clear_if_set ref w) = ∅.
Proof.
  intros Hw. destruct ref as [[|n]|]; cbn; try done.
  rewrite Hw. apply delete_empty.
Qed.

(** Stopping through the record button clears both intervals. *)
Lemma stop_recording_clears s :
  Interview.timers_follow_recording s →
  Interview.isRecording s = true →
  let s' := Interview.handleToggleRecording s in
  Interview.isRecording s' = false
  ∧ Interview.intervals (Interview.window s') = ∅.
Proof.
  intros (_ & _ & Hrec) Hon. rewrite Hon in Hrec.
  destruct Hrec as (a & b & Ia & Ib & Ha & Hb & Hw).
  unfold Interview.handleToggleRecording. rewrite Hon, Ha, Hb. cbn.
  split; [done|]. rewrite Hw. apply map_eq. intros k.
  rewrite lookup_empty.
  destruct (decide (k = S b)) as [->|]; [by rewrite lookup_delete_eq|].
  rewrite lookup_delete_ne by done.
  destruct (decide (k = S a)) as [->|]; [by rewrite lookup_delete_eq|].
  rewrite lookup_delete_ne by done.
  by rewrite !lookup_insert_ne.
Qed.

Lemma step_timers s e s' c :
  Interview.recognition_ok e = true →
  Interview.timers_follow_recording s →
  Interview.step questions s e = Some (s', c) →
  Interview.timers_follow_recording s'.
Proof.
  intros Hok Hinv Hstep. pose proof Hinv as (Hid & Hproc & Hrec).
  destruct e as [| | |results|error|id frame|n r|]; cbn [Interview.step] in Hstep.
  - destruct (Interview.isProcessing s) eqn:Hp; simplify_eq.
    destruct (Interview.isRecording s) eqn:Hon.
    + destruct (stop_recording_clears s Hinv Hon) as [Hoff Hw].
      unfold Interview.timers_follow_recording. rewrite Hoff, Hw.
      unfold Interview.handleToggleRecording. rewrite Hon. cbn.
      rewrite Hp. split; [|done].
      destruct Hrec as (a & b & Ia & Ib & Ha & Hb & _). rewrite Ha, Hb. by cbn.
    + unfold Interview.timers_follow_recording, Interview.handleToggleRecording.
      rewrite Hon. cbn. rewrite Hp. split; [lia|]. split; [done|].
      destruct (Interview.next_id (Interview.window s)) as [|n] eqn:Hn; [lia|].
      eexists n, (S n), _, _. split; [done|]. split; [done|]. by rewrite Hrec.
  - destruct (Interview.isProcessing s) eqn:Hp; [done|].
    destruct (Interview.isRecording s) eqn:Hon; [done|]. simplify_eq/=.
    unfold Interview.timers_follow_recording, Interview.handleNextQuestion_begin.
    rewrite Hon. cbn. by rewrite Hon.
  - destruct (Interview.isProcessing s) eqn:Hp; [|done].
    rewrite (Hproc eq_refl) in Hrec. simplify_eq.
    unfold Interview.timers_follow_recording, Interview.handleNextQuestion_resume in *.
    destruct (_ <? _)%Z; simplify_eq; cbn; rewrite (Hproc eq_refl).
    + unfold Interview.effect_cleanup. split; [|split; [done|]].
      * by destruct (Interview.malpracticeCheckIntervalRef s) as [[|?]|],
          (Interview.snapshotIntervalRef s) as [[|?]|].
      * by do 2 apply clear_if_set_empty.
    + done.
  - simplify_eq. unfold Interview.onresult.
    by destruct (Interview.onresult_loop results).
  - simplify_eq. cbn in Hok. apply bool_decide_eq_true in Hok.
    unfold Interview.onerror. by rewrite decide_True.
  - destruct (Interview.intervals (Interview.window s) !! id)
      as [[[index|index|] ms]|]; simplify_eq.
    + unfold Interview.run_captureSnapshot. by destruct frame.
    + unfold Interview.analyzeFrameForMalpractice_begin. by destruct frame.
    + done.
  - destruct (Interview.pendingChecks s !! n) as [index|]; simplify_eq.
    unfold Interview.analyzeFrameForMalpractice_resume.
    destruct r as [| |result]; try done.
    by destruct (Interview.phoneDetected result || Interview.suspiciousGaze result).
  - destruct (Interview.alertTimeouts s); by simplify_eq.
Qed.

Lemma run_timers es s s' cs :
  forallb Interview.recognition_ok es = true →
  Interview.timers_follow_recording s →
  Interview.run questions s es = Some (s', cs) →
  Interview.timers_follow_recording s'.
Proof.
  revert s cs. induction es as [|e es IH]; intros s cs Hok Hinv Hrun.
  - by simplify_eq/=.
  - cbn [forallb] in Hok. apply andb_true_iff in Hok as [Hok Hoks].
    cbn [Interview.run] in Hrun.
    destruct (Interview.step questions s e) as [[s1 c]|] eqn:Hstep;
      cbn [mbind option_bind] in Hrun; [|done].
    destruct (Interview.run questions s1 es) as [[s2 cs2]|] eqn:Hrun';
      cbn [mbind option_bind] in Hrun; simplify_eq.
    eapply IH; [done| |done]. by eapply step_timers.
Qed.

(** As long as the recognizer reports no error, no interval fires while
    recording is off: nothing is appended to any snapshot list then. *)
Lemma no_capture_while_off es s cs id frame :
  forallb Interview.recognition_ok es = true →
  Interview.run questions Interview.init es = Some (s, cs) →
  Interview.isRecording s = false →
  Interview.step questions s (Interview.IntervalFires id frame) = None.
Proof.
  intros Hok Hrun Hoff.
  assert (Hinit : Interview.timers_follow_recording Interview.init).
  { unfold Interview.timers_follow_recording. cbn. split; [lia|done]. }
  destruct (run_timers _ _ _ _ Hok Hinit Hrun) as (_ & _ & Hrec).
  rewrite Hoff in Hrec. cbn [Interview.step]. by rewrite Hrec, lookup_empty.
Qed.

End Capture.

(** C5, on the code. After recording is started and the recognizer reports
    an error other than ['no-speech'], recording is off but the snapshot
    interval is still installed: when it fires, a snapshot is appended to the
    list of the current question. *)
Theorem snapshot_while_recording_is_off :
  ∃ s1 s2,
    Interview.run Sample.questions Interview.init Sample.recognition_error_trace
    = Some (s1, [])
    ∧ Interview.isRecording s1 = false
    ∧ Interview.snapshotsRef s1 !! 0 = None
    ∧ Interview.intervals (Interview.window s1) !! 1
      = Some {| Interview.callback := Interview.captureSnapshot 0;
                Interview.delay := 5000 |}
    ∧ Interview.step Sample.questions s1
        (Interview.IntervalFires 1 (Some Sample.frame))
      = Some (s2, None)
    ∧ Interview.isRecording s2 = false
    ∧ Interview.snapshotsRef s2 !! 0 = Some [Sample.frame].
Proof.
  eexists _, _. split; [reflexivity|]. split; [reflexivity|].
  split; [reflexivity|]. split; [reflexivity|]. split; [reflexivity|].
  split; reflexivity.
Qed.

(** * More of the application *)

(** ** What [App] holds in every state it reaches *)

Section Guarded.

Lemma startInterview_begin_guarded a : Invariant.guarded (App.startInterview_begin a).
Proof. repeat split; try done. by left. Qed.

Lemma handleTryAgain_guarded a : Invariant.guarded (App.handleTryAgain a).
Proof. repeat split; try done. by left. Qed.

Lemma handleInterviewComplete_begin_guarded a :
  Invariant.guarded a → Invariant.guarded (App.handleInterviewComplete_begin a).
Proof.
  intros Ha. unfold App.handleInterviewComplete_begin.
  destruct (App.session a); [|done]. repeat split; try done. by left.
Qed.

Lemma startInterview_resume_guarded config r a :
  App.error a = None → Invariant.guarded (App.startInterview_resume config r a).
Proof.
  intros He. unfold App.startInterview_resume, App.startInterview_try.
  destruct r as [| |v]; try (repeat split; try done; right; by left).
  destruct (get v (lit "questions")) as [| |value];
    try (repeat split; try done; right; by left).
  destruct (truthy value) eqn:Htruthy; cbn [negb orb];
    [|repeat split; try done; right; by left].
  destruct (length_is_zero value) eqn:Hlength;
    [repeat split; try done; right; by left|].
  repeat split; try done.
  - intros _. by eexists.
  - by left.
Qed.

Lemma handleInterviewComplete_resume_guarded session0 answers snapshots logs r a :
  App.error a = None →
  Invariant.guarded
    (App.handleInterviewComplete_resume session0 answers snapshots logs r a).
Proof.
  intros He. destruct r as [| |ev]; cbn;
    try (repeat split; try done; right; by right).
  repeat split; try done. by left.
Qed.

Lemma step_guarded σ e σ' q :
  System.consistent σ → Invariant.guarded (System.app σ) →
  System.step σ e = Some (σ', q) → Invariant.guarded (System.app σ').
Proof.
  intros [_ Hpending] Hg Hstep.
  assert (Hloading : is_Some (System.pending σ) → App.error (System.app σ) = None).
  { intros Hp. apply Hpending in Hp. destruct Hg as (_ & He & _).
    apply He. by rewrite Hp. }
  unfold System.step in Hstep. destruct e as [e| |r|e|c request|r|].
  - destruct (System.child σ); by simplify_eq.
  - destruct (System.child σ); simplify_eq. apply startInterview_begin_guarded.
  - destruct (System.pending σ) as [[config|]|] eqn:Hp;
      destruct (System.child σ); simplify_eq;
      apply startInterview_resume_guarded, Hloading; by eexists.
  - destruct (System.child σ) as [h| |i|]; simplify_eq.
    destruct (App.renderContent (System.app σ)) as [| |value|]; simplify_eq.
    destruct (string_array value) as [questions|];
      cbn [mbind option_bind] in Hstep; [|done].
    destruct (Interview.step questions i e) as [[i' [c|]]|];
      cbn [mbind option_bind] in Hstep; simplify_eq; [|done].
    unfold System.interview_complete in *.
    destruct (App.session (System.app σ)) eqn:Hs; simplify_eq; [|done].
    cbn. by apply handleInterviewComplete_begin_guarded.
  - destruct (System.child σ) as [h| |i|]; simplify_eq.
    destruct (App.renderContent (System.app σ)) as [| |value|]; simplify_eq.
    destruct (string_array value); [done|].
    unfold System.untyped_complete in Hstep.
    destruct (App.session (System.app σ)) eqn:Hs;
      destruct value, request; simplify_eq; cbn;
      first [done | by apply handleInterviewComplete_begin_guarded].
  - destruct (System.pending σ) as [[|session0 answers snapshots logs]|] eqn:Hp;
      destruct (System.child σ); simplify_eq;
      apply handleInterviewComplete_resume_guarded, Hloading; by eexists.
  - destruct (System.child σ); simplify_eq. apply handleTryAgain_guarded.
Qed.

Lemma run_guarded es σ σ' qs :
  System.consistent σ → Invariant.guarded (System.app σ) →
  System.run σ es = Some (σ', qs) →
  System.consistent σ' ∧ Invariant.guarded (System.app σ').
Proof.
  revert σ qs. induction es as [|e es IH]; intros σ qs Hc Hg Hrun.
  - by simplify_eq/=.
  - cbn [System.run] in Hrun.
    destruct (System.step σ e) as [[σ1 q]|] eqn:Hstep;
      cbn [mbind option_bind] in Hrun; [|done].
    destruct (System.run σ1 es) as [[σ2 qs2]|] eqn:Hrun';
      cbn [mbind option_bind] in Hrun; simplify_eq.
    eapply IH; [| |done].
    + by eapply step_consistent.
    + by eapply step_guarded.
Qed.

Lemma reachable_guarded σ :
  System.reachable σ → System.consistent σ ∧ Invariant.guarded (System.app σ).
Proof.
  intros (es & qs & Hrun). eapply run_guarded; [| |done].
  - apply init_consistent.
  - repeat split; try done. by left.
Qed.

End Guarded.

(** The defensive branch of [renderContent] for ['INTERVIEW'] is never
    taken: in every state the application reaches with that [appState], the
    session holds the [questions] that passed the guard of
    [startInterview], whatever kind of value they are, and the Interview
    screen is rendered with them; the Home screen never shows
    ['An unexpected error occurred.']. *)
Theorem unexpected_error_never_shown (σ : System.State) :
  System.reachable σ →
  (App.appState (System.app σ) = INTERVIEW →
   ∃ session0,
     App.session (System.app σ) = Some session0
     ∧ truthy (questions session0) = true
     ∧ length_is_zero (questions session0) = false
     ∧ App.renderContent (System.app σ) = App.InterviewView (questions session0))
  ∧ App.renderContent (System.app σ)
    ≠ App.HomeView (Some (lit "An unexpected error occurred.")).
Proof.
  intros Hr. destruct (reachable_guarded σ Hr) as [_ (Hi & _ & He)].
  unfold App.renderContent.
  destruct (App.appState (System.app σ)) eqn:Hst.
  - split; [done|].
    destruct He as [-> | [-> | ->]]; intros H; by inversion H.
  - destruct (Hi eq_refl) as (session0 & -> & Htruthy & Hlength). rewrite Htruthy.
    split; [|done]. intros _. by exists session0.
  - split; [done|].
    destruct (App.session (System.app σ) ≫= evaluation); intros H; by inversion H.
  - done.
Qed.

Lemma interviewing_reachable : System.reachable Scenario.interviewing.
Proof.
  exists Scenario.good_start,
         [App.startInterview_request (Home.handleSubmit Home.init)].
  vm_compute. reflexivity.
Qed.

Lemma unexpected_error_never_shown_witness :
  System.reachable Scenario.interviewing
  ∧ App.appState (System.app Scenario.interviewing) = INTERVIEW
  ∧ ∃ session0,
      App.session (System.app Scenario.interviewing) = Some session0
      ∧ truthy (questions session0) = true
      ∧ length_is_zero (questions session0) = false
      ∧ App.renderContent (System.app Scenario.interviewing)
        = App.InterviewView (questions session0).
Proof.
  split; [exact interviewing_reachable|]. split; [reflexivity|].
  exact (proj1 (unexpected_error_never_shown _ interviewing_reachable) eq_refl).
Defined.

(** An error message is only held at Home, where it is displayed, and it is
    one of the two messages of the [catch] blocks. *)
Theorem error_only_at_home (σ : System.State) (message : jsstring) :
  System.reachable σ →
  App.error (System.app σ) = Some message →
  App.appState (System.app σ) = HOME
  ∧ App.renderContent (System.app σ) = App.HomeView (Some message)
  ∧ (message = lit "Could not generate questions. Please check your API key and try again."
     ∨ message = lit "An error occurred during evaluation. Please try another interview.").
Proof.
  intros Hr Hm.
  destruct (reachable_guarded σ Hr) as [_ (_ & Hhome & He)].
  assert (Hst : App.appState (System.app σ) = HOME).
  { destruct (App.appState (System.app σ)) eqn:E; [done| | |];
      (assert (App.error (System.app σ) = None) by (by apply Hhome)); congruence. }
  split; [done|]. split; [unfold App.renderContent; by rewrite Hst, Hm|].
  rewrite Hm in He. destruct He as [He|[He|He]]; simplify_eq; auto.
Qed.

Lemma generation_failed_reachable : System.reachable Scenario.generation_failed.
Proof.
  exists Scenario.failing_start,
         [App.startInterview_request
            (Build_InterviewConfig (lit "Data Scientist") (lit "Medium"))].
  reflexivity.
Qed.

Lemma error_only_at_home_witness :
  System.reachable Scenario.generation_failed
  ∧ App.error (System.app Scenario.generation_failed)
    = Some (lit "Could not generate questions. Please check your API key and try again.")
  ∧ App.appState (System.app Scenario.generation_failed) = HOME
  ∧ App.renderContent (System.app Scenario.generation_failed)
    = App.HomeView
        (Some (lit "Could not generate questions. Please check your API key and try again.")).
Proof.
  pose proof (error_only_at_home Scenario.generation_failed _
                generation_failed_reachable eq_refl) as (H1 & H2 & _).
  split; [exact generation_failed_reachable|]. split; [reflexivity|].
  split; [exact H1 | exact H2].
Defined.

(** ** The Home form after a detour *)

(** Whenever an event brings the Home screen back (a failed request, or
    ``Try Another Interview''), its form is mounted afresh: the role and
    the difficulty are the defaults again, whatever had been selected. *)
Theorem home_form_is_reset (σ σ' : System.State) (e : System.Event)
    (q : option Request) (h : Home.State) :
  (∀ h0, System.child σ ≠ System.HomeC h0) →
  System.step σ e = Some (σ', q) →
  System.child σ' = System.HomeC h →
  Home.role h = lit "Software Engineer" ∧ Home.difficulty h = lit "Medium".
Proof.
  intros Hnot Hstep Hh.
  assert (Hrender : ∀ a w p c, (∀ h0, c ≠ System.HomeC h0) →
            System.child (System.render a c w p) = System.HomeC h → h = Home.init).
  { intros a w p c Hc Hrender. unfold System.render in Hrender. cbn in Hrender.
    destruct c as [h0| |i|]; [by destruct (Hc h0)|..];
      destruct (App.renderContent a); by simplify_eq/=. }
  assert (h = Home.init) as ->; [|done].
  unfold System.step in Hstep. destruct e as [e| |r|e|c request|r|].
  - destruct (System.child σ) as [h0| |i|] eqn:Hc; simplify_eq;
      try (by destruct (Hnot h0)).
  - destruct (System.child σ) as [h0| |i|] eqn:Hc; simplify_eq;
      try (by destruct (Hnot h0)).
  - destruct (System.pending σ) as [[config|]|]; [|done..].
    simplify_eq. exact (Hrender _ _ _ _ Hnot Hh).
  - destruct (System.child σ) as [h0| |i|] eqn:Hc; simplify_eq.
    destruct (App.renderContent (System.app σ)) as [| |value|] eqn:Hv; simplify_eq.
    destruct (string_array value) as [questions|];
      cbn [mbind option_bind] in Hstep; [|done].
    destruct (Interview.step questions i e) as [[i' [c|]]|];
      cbn [mbind option_bind] in Hstep; simplify_eq.
    unfold System.interview_complete in *.
    destruct (App.session (System.app σ)) eqn:Hs; simplify_eq;
      (eapply Hrender; [|exact Hh]; done).
  - destruct (System.child σ) as [h0| |i|] eqn:Hc; simplify_eq.
    destruct (App.renderContent (System.app σ)) as [| |value|] eqn:Hv; simplify_eq.
    destruct (string_array value); [done|].
    unfold System.untyped_complete in Hstep.
    destruct (App.session (System.app σ)) eqn:Hs;
      destruct value, request; simplify_eq; (eapply Hrender; [|exact Hh]; done).
  - destruct (System.pending σ) as [[|session0 answers snapshots logs]|]; [done| |done].
    simplify_eq. exact (Hrender _ _ _ _ Hnot Hh).
  - destruct (System.child σ) as [h0| |i|] eqn:Hc; simplify_eq.
    (eapply Hrender; [|exact Hh]; done).
Qed.

Lemma home_form_is_reset_witness :
  (∀ h0, System.child Scenario.awaiting_with_choice ≠ System.HomeC h0)
  ∧ System.step Scenario.awaiting_with_choice (System.QuestionsSettled Unparsable)
    = Some (Scenario.generation_failed, None)
  ∧ Home.role Home.init = lit "Software Engineer"
  ∧ Home.difficulty Home.init = lit "Medium".
Proof.
  assert (H1 : ∀ h0, System.child Scenario.awaiting_with_choice ≠ System.HomeC h0)
    by (intros h0; discriminate).
  assert (H2 : System.step Scenario.awaiting_with_choice
                 (System.QuestionsSettled Unparsable)
               = Some (Scenario.generation_failed, None)) by reflexivity.
  split; [exact H1|]. split; [exact H2|].
  exact (home_form_is_reset _ _ _ _ _ H1 H2 eq_refl).
Defined.

(** ** The events of the Interview component, case by case *)

Section InterviewSteps.

Variable questions : list jsstring.

Lemma step_cases s e s' c :
  Interview.step questions s e = Some (s', c) →
  (e = Interview.ToggleRecordingClick ∧ Interview.isProcessing s = false
   ∧ s' = Interview.handleToggleRecording s ∧ c = None)
  ∨ (e = Interview.NextQuestionClick ∧ Interview.isProcessing s = false
     ∧ Interview.isRecording s = false
     ∧ s' = Interview.handleNextQuestion_begin s ∧ c = None)
  ∨ (e = Interview.NextQuestionTimeout ∧ Interview.isProcessing s = true
     ∧ Interview.handleNextQuestion_resume questions s = (s', c))
  ∨ (∃ results, e = Interview.RecognitionResult results
                ∧ s' = Interview.onresult results s ∧ c = None)
  ∨ (∃ error, e = Interview.RecognitionError error
              ∧ s' = Interview.onerror error s ∧ c = None)
  ∨ (∃ id frame index ms,
       e = Interview.IntervalFires id frame
       ∧ Interview.intervals (Interview.window s) !! id
         = Some {| Interview.callback := Interview.captureSnapshot index;
                   Interview.delay := ms |}
       ∧ s' = Interview.run_captureSnapshot index frame s ∧ c = None)
  ∨ (∃ id frame index ms,
       e = Interview.IntervalFires id frame
       ∧ Interview.intervals (Interview.window s) !! id
         = Some {| Interview.callback := Interview.analyzeFrameForMalpractice index;
                   Interview.delay := ms |}
       ∧ s' = Interview.analyzeFrameForMalpractice_begin index frame s ∧ c = None)
  ∨ (∃ id frame ms,
       e = Interview.IntervalFires id frame
       ∧ Interview.intervals (Interview.window s) !! id
         = Some {| Interview.callback := Interview.unmounted; Interview.delay := ms |}
       ∧ s' = s ∧ c = None)
  ∨ (∃ n r index,
       e = Interview.AnalysisSettled n r
       ∧ Interview.pendingChecks s !! n = Some index
       ∧ s' = Interview.analyzeFrameForMalpractice_resume n index r s ∧ c = None)
  ∨ (e = Interview.AlertTimeout ∧ s' = Interview.alert_timeout s ∧ c = None).
Proof.
  intros Hstep. destruct e as [| | |results|error|id frame|n r|];
    cbn [Interview.step] in Hstep.
  - destruct (Interview.isProcessing s); simplify_eq. by left.
  - destruct (Interview.isProcessing s); [done|].
    destruct (Interview.isRecording s); [done|]. simplify_eq/=. right. by left.
  - destruct (Interview.isProcessing s); [|done]. simplify_eq.
    do 2 right. by left.
  - simplify_eq. do 3 right. left. by eexists.
  - simplify_eq. do 4 right. left. by eexists.
  - destruct (Interview.intervals (Interview.window s) !! id)
      as [[[index|index|] ms]|] eqn:Hid; simplify_eq.
    + do 5 right. left. by eexists _, _, _, _.
    + do 6 right. left. by eexists _, _, _, _.
    + do 7 right. left. by eexists _, _, _.
  - destruct (Interview.pendingChecks s !! n) as [index|] eqn:Hn; simplify_eq.
    do 8 right. left. by eexists _, _, _.
  - destruct (Interview.alertTimeouts s); simplify_eq. by do 9 right.
Qed.

(** A property every enabled event keeps holds after any sequence of them,
    and what every reported completion satisfies holds of all of them. *)
Lemma run_keeps (P : Interview.State → Prop) (Q : Interview.Completion → Prop) :
  (∀ s e s' c, P s → Interview.step questions s e = Some (s', c) →
               P s' ∧ ∀ c', c = Some c' → Q c') →
  ∀ es s s' cs, P s → Interview.run questions s es = Some (s', cs) →
                P s' ∧ Forall Q cs.
Proof.
  intros Hstep. induction es as [|e es IH]; intros s s' cs Hs Hrun.
  - by simplify_eq/=.
  - cbn [Interview.run] in Hrun.
    destruct (Interview.step questions s e) as [[s1 c]|] eqn:He;
      cbn [mbind option_bind] in Hrun; [|done].
    destruct (Interview.run questions s1 es) as [[s2 cs2]|] eqn:Hrun';
      cbn [mbind option_bind] in Hrun; simplify_eq.
    destruct (Hstep _ _ _ _ Hs He) as [Hs1 Hc].
    destruct (IH _ _ _ Hs1 Hrun') as [Hs2 Hcs]. split; [done|].
    apply Forall_app. split; [|done].
    destruct c as [c|]; cbn; [|done]. constructor; [by apply Hc | done].
Qed.

Lemma run_app es1 es2 s s1 s2 cs1 cs2 :
  Interview.run questions s es1 = Some (s1, cs1) →
  Interview.run questions s1 es2 = Some (s2, cs2) →
  Interview.run questions s (es1 ++ es2) = Some (s2, cs1 ++ cs2).
Proof.
  revert s cs1. induction es1 as [|e es1 IH]; intros s cs1 H1 H2.
  - by simplify_eq/=.
  - cbn [Interview.run app] in *.
    destruct (Interview.step questions s e) as [[s' c]|];
      cbn [mbind option_bind] in *; [|done].
    destruct (Interview.run questions s' es1) as [[s'' cs']|] eqn:Hrun;
      cbn [mbind option_bind] in *; simplify_eq.
    rewrite (IH _ _ Hrun H2). cbn. by rewrite app_assoc.
Qed.

End InterviewSteps.

Ltac step_cases H :=
  apply step_cases in H;
  destruct H as
    [(-> & ?Hp & -> & ->)
    |[(-> & ?Hp & ?Hoff & -> & ->)
    |[(-> & ?Hp & ?Hres)
    |[(?results & -> & -> & ->)
    |[(?error & -> & -> & ->)
    |[(?id & ?frame & ?index & ?ms & -> & ?Hid & -> & ->)
    |[(?id & ?frame & ?index & ?ms & -> & ?Hid & -> & ->)
    |[(?id & ?frame & ?ms & -> & ?Hid & -> & ->)
    |[(?n & ?r & ?index & -> & ?Hn & -> & ->)
    |(-> & -> & ->)]]]]]]]]].

(** ** Arrays with holes *)

Section Arrays.

Context {A : Type}.

Lemma array_get_set_ne (a : array A) (i j : nat) (v : A) :
  i ≠ j → array_get (array_set a i v) j = array_get a j.
Proof.
  intros Hne. unfold array_get, array_set.
  destruct (decide (i < length a)) as [Hlt|Hge].
  - by rewrite list_lookup_insert_ne.
  - destruct (decide (j < length a)) as [Hj|Hj].
    + by rewrite lookup_app_l.
    + rewrite (lookup_ge_None_2 a j) by lia.
      rewrite lookup_app_r by lia.
      destruct (decide (j - length a < i - length a)) as [Hin|Hout].
      * rewrite lookup_app_l by (rewrite length_replicate; lia).
        by rewrite lookup_replicate_2.
      * rewrite lookup_app_r by (rewrite length_replicate; lia).
        rewrite length_replicate.
        by rewrite lookup_ge_None_2 by (simpl; lia).
Qed.

Lemma array_set_is_Some (a : array A) (i j : nat) (v : A) :
  is_Some (array_get a j) → is_Some (array_get (array_set a i v) j).
Proof.
  intros H. destruct (decide (i = j)) as [->|Hne].
  - rewrite array_get_set. by eexists.
  - by rewrite array_get_set_ne.
Qed.

End Arrays.

(** ** The answers handed over at the end *)

Section Answers.

Variable questions : list jsstring.

Lemma step_answered s e s' c :
  Invariant.answered s → Interview.step questions s e = Some (s', c) →
  Invariant.answered s'
  ∧ ∀ c', c = Some c' →
          ∀ i, i < length questions →
               is_Some (array_get (Interview.completed_answers c') i).
Proof.
  intros [Hpast Hcur] Hstep. step_cases Hstep.
  - split; [|done]. unfold Invariant.answered, Interview.handleToggleRecording.
    destruct (Interview.isRecording s); cbn; rewrite Hp.
    + split; [done|done].
    + split; [|done]. intros i Hi. by apply array_set_is_Some, Hpast.
  - split; [|done]. unfold Invariant.answered, Interview.handleNextQuestion_begin.
    rewrite Hoff. cbn. split.
    + intros i Hi. by apply array_set_is_Some, Hpast.
    + intros _. rewrite array_get_set. by eexists.
  - unfold Interview.handleNextQuestion_resume in Hres.
    destruct (Z.ltb_spec (Z.of_nat (Interview.currentQuestionIndex s))
                (Z.of_nat (length questions) - 1)); simplify_eq.
    + split; [|done]. split; cbn; [|done]. intros i Hi.
      destruct (decide (i = Interview.currentQuestionIndex s)) as [->|];
        [by apply Hcur | apply Hpast; lia].
    + split; [split; cbn; [done|done]|].
      intros c' Hc' i Hi. simplify_eq. cbn.
      destruct (decide (i = Interview.currentQuestionIndex s)) as [->|];
        [by apply Hcur | apply Hpast; lia].
  - split; [|done]. unfold Invariant.answered, Interview.onresult.
    destruct (Interview.onresult_loop results). cbn. split.
    + intros i Hi. by apply array_set_is_Some, Hpast.
    + intros Hproc. by apply array_set_is_Some, Hcur.
  - split; [|done]. unfold Interview.onerror. by destruct (decide _).
  - split; [|done]. unfold Interview.run_captureSnapshot. by destruct frame.
  - split; [|done]. unfold Interview.analyzeFrameForMalpractice_begin.
    by destruct frame.
  - by split.
  - split; [|done]. unfold Interview.analyzeFrameForMalpractice_resume.
    destruct r as [| |result]; try done.
    by destruct (Interview.phoneDetected result || Interview.suspiciousGaze result).
  - by split.
Qed.

End Answers.

(** Whenever the component calls [onInterviewComplete], the answers it
    hands over have an entry, possibly the empty string, for every question:
    none is a hole of the array. *)
Theorem completion_answers_every_question (questions : list jsstring)
    (es : list Interview.Event) (s : Interview.State)
    (cs : list Interview.Completion) (c : Interview.Completion) (i : nat) :
  Interview.run questions Interview.init es = Some (s, cs) →
  c ∈ cs →
  i < length questions →
  ∃ answer, array_get (Interview.completed_answers c) i = Some answer.
Proof.
  intros Hrun Hc Hi.
  assert (Hinit : Invariant.answered Interview.init).
  { split; [intros j Hj; cbn in Hj; lia | done]. }
  destruct (run_keeps questions Invariant.answered
              (λ c, ∀ i, i < length questions →
                         is_Some (array_get (Interview.completed_answers c) i))
              (step_answered questions) es _ _ _ Hinit Hrun) as [_ Hall].
  rewrite Forall_forall in Hall. by apply Hall.
Qed.

(** ** The images of the evaluation request *)

Section Images.

Variable answers : array jsstring.
Variable snapshots : gmap nat (list jsstring).

Lemma image_in_block (k : nat) (q mime data : jsstring) :
  inlineData mime data ∈ Spec.question_block answers snapshots k q
  ↔ mime = lit "image/jpeg" ∧ ∃ l, snapshots !! k = Some l ∧ data ∈ l.
Proof.
  unfold Spec.question_block, Spec.snapshot_parts.
  rewrite elem_of_app. split.
  - intros [Hin|Hin].
    + repeat (apply elem_of_cons in Hin as [Hin|Hin]; [done|]).
      by apply elem_of_nil in Hin.
    + destruct (snapshots !! k) as [l|] eqn:Hk.
      * destruct (decide (l = [])).
        -- apply list_elem_of_singleton in Hin. done.
        -- apply list_elem_of_fmap in Hin as (x & Hx & Hin). simplify_eq.
           split; [done|]. by exists l.
      * apply list_elem_of_singleton in Hin. done.
  - intros [-> (l & Hk & Hin)]. right. rewrite Hk.
    destruct (decide (l = [])) as [->|]; [by apply elem_of_nil in Hin|].
    apply list_elem_of_fmap. by exists data.
Qed.

Lemma evaluation_parts_blocks (qs : list jsstring) :
  App.evaluation_parts qs answers snapshots
  = text (lit "Begin Evaluation:" ++ nl)
    :: concat (imap (Spec.question_block answers snapshots) qs).
Proof.
  unfold App.evaluation_parts, App.forEach. rewrite forEach_questions.
  cbn [app]. f_equal.
Qed.

End Images.

(** The evaluation request carries an inline part with data [d] exactly
    when [d] is a snapshot stored under the index of one of the questions,
    and every inline part is an ``image/jpeg'': no snapshot of a question is
    left out, and lists stored under an index past the last question are not
    sent. *)
Theorem image_parts_are_the_snapshots (qs : list jsstring) (answers : array jsstring)
    (snapshots : gmap nat (list jsstring)) (mime data : jsstring) :
  inlineData mime data ∈ App.evaluation_parts qs answers snapshots
  ↔ mime = lit "image/jpeg"
    ∧ ∃ k l, k < length qs ∧ snapshots !! k = Some l ∧ data ∈ l.
Proof.
  rewrite evaluation_parts_blocks, elem_of_cons. split.
  - intros [Hin|Hin]; [done|].
    apply list_elem_of_In, in_concat in Hin as (block & Hblock & Hin).
    apply list_elem_of_In, list_elem_of_lookup in Hblock as [k Hk].
    rewrite list_lookup_imap in Hk.
    destruct (qs !! k) as [q|] eqn:Hq;
      cbn [fmap option_fmap option_map] in Hk; simplify_eq.
    apply list_elem_of_In, image_in_block in Hin as [-> (l & Hl & Hin)].
    split; [done|]. exists k, l. split; [by eapply lookup_lt_Some | done].
  - intros [-> (k & l & Hk & Hl & Hin)]. right.
    apply lookup_lt_is_Some_2 in Hk as [q Hq].
    apply list_elem_of_In, in_concat.
    exists (Spec.question_block answers snapshots k q). split.
    + apply list_elem_of_In, list_elem_of_lookup. exists k.
      by rewrite list_lookup_imap, Hq.
    + apply list_elem_of_In, image_in_block. split; [done|]. by exists l.
Qed.

(** ** Where snapshots and logs are stored *)

Section Keys.

Variable questions : list jsstring.

Lemma clear_if_set_lookup_Some ref w id I :
  Interview.intervals (Interview.clear_if_set ref w) !! id = Some I →
  Interview.intervals w !! id = Some I.
Proof.
  destruct ref as [[|n]|]; cbn; try done.
  rewrite lookup_delete_Some. by intros [_ ?].
Qed.

Lemma push_at_is_Some {V} (o : gmap nat (list V)) (k j : nat) (v : V) :
  is_Some (push_at o k v !! j) → j = k ∨ is_Some (o !! j).
Proof.
  unfold push_at. rewrite lookup_insert_is_Some. intros [->|[_ ?]]; auto.
Qed.

Lemma step_keys_reached s e s' c :
  Invariant.keys_reached s → Interview.step questions s e = Some (s', c) →
  Invariant.keys_reached s'.
Proof.
  intros (Hsnap & Hlog & Hcb & Hchecks) Hstep. step_cases Hstep.
  - unfold Invariant.keys_reached, Interview.handleToggleRecording.
    destruct (Interview.isRecording s); cbn.
    + split; [done|]. split; [done|]. split; [|done]. intros id I HI.
      by do 2 apply clear_if_set_lookup_Some in HI; eapply Hcb.
    + split; [done|]. split; [|split; [|done]].
      * intros k. rewrite lookup_insert_is_Some. intros [<-|[_ Hk]]; [done|auto].
      * intros id I. rewrite lookup_insert_Some.
        intros [[_ <-]|[_ HI]]; [done|]. revert HI. rewrite lookup_insert_Some.
        intros [[_ <-]|[_ HI]]; [done|]. by eapply Hcb.
  - unfold Invariant.keys_reached, Interview.handleNextQuestion_begin.
    rewrite Hoff. by cbn.
  - unfold Interview.handleNextQuestion_resume in Hres.
    destruct (_ <? _)%Z; simplify_eq; [|done].
    unfold Invariant.keys_reached. cbn. split; [|split; [|split]].
    + intros k Hk. apply Hsnap in Hk. lia.
    + intros k Hk. apply Hlog in Hk. lia.
    + intros id I HI. unfold Interview.effect_cleanup in HI.
      do 2 apply clear_if_set_lookup_Some in HI. apply Hcb in HI. lia.
    + eapply Forall_impl; [done|]. cbn. lia.
  - unfold Invariant.keys_reached, Interview.onresult.
    by destruct (Interview.onresult_loop results).
  - unfold Interview.onerror. by destruct (decide _).
  - unfold Interview.run_captureSnapshot. destruct frame as [img|]; [|done].
    unfold Invariant.keys_reached. cbn. split; [|done].
    intros k Hk. apply push_at_is_Some in Hk as [->|Hk]; [|auto].
    by apply Hcb in Hid.
  - unfold Interview.analyzeFrameForMalpractice_begin.
    destruct frame as [img|]; [|done].
    unfold Invariant.keys_reached. cbn. split; [done|]. split; [done|].
    split; [done|]. apply Forall_app. split; [done|].
    apply Forall_singleton. by apply Hcb in Hid.
  - done.
  - assert (Hindex : index ≤ Interview.currentQuestionIndex s)
      by (by eapply (Forall_lookup_1 _ _ _ _ Hchecks)).
    assert (Hrest : Forall (λ index, index ≤ Interview.currentQuestionIndex s)
                      (delete n (Interview.pendingChecks s)))
      by (by apply Forall_delete).
    unfold Interview.analyzeFrameForMalpractice_resume.
    destruct r as [| |result]; try done.
    destruct (Interview.phoneDetected result || Interview.suspiciousGaze result);
      [|done].
    unfold Invariant.keys_reached. cbn. split; [done|]. split; [|done].
    intros k Hk. apply push_at_is_Some in Hk as [->|Hk]; [done|auto].
  - done.
Qed.

Lemma step_keys_in_range s e s' c :
  questions ≠ [] →
  Invariant.keys_reached s
  ∧ Interview.currentQuestionIndex s < length questions →
  Interview.step questions s e = Some (s', c) →
  (Invariant.keys_reached s'
   ∧ Interview.currentQuestionIndex s' < length questions)
  ∧ ∀ c', c = Some c' →
          (∀ k, is_Some (Interview.completed_snapshots c' !! k) → k < length questions)
          ∧ (∀ k, is_Some (Interview.completed_malpracticeLogs c' !! k) →
                  k < length questions).
Proof.
  intros Hne [Hkeys Hidx] Hstep. split.
  - split; [by eapply step_keys_reached | by eapply step_index].
  - intros c' Hc'. destruct Hkeys as (Hsnap & Hlog & _).
    step_cases Hstep; try discriminate Hc'.
    unfold Interview.handleNextQuestion_resume in Hres.
    destruct (_ <? _)%Z; simplify_eq. cbn. split.
    + intros k Hk. apply Hsnap in Hk. lia.
    + intros k Hk. apply Hlog in Hk. lia.
Qed.

End Keys.

(** Every snapshot the component hands over at the end was taken for one
    of the questions, so the evaluation request built from the completion
    carries every one of them as an image part; likewise every malpractice
    log belongs to one of the questions. *)
Theorem every_snapshot_is_sent (questions : list jsstring)
    (es : list Interview.Event) (s : Interview.State)
    (cs : list Interview.Completion) (c : Interview.Completion) :
  questions ≠ [] →
  Interview.run questions Interview.init es = Some (s, cs) →
  c ∈ cs →
  (∀ k l data,
     Interview.completed_snapshots c !! k = Some l → data ∈ l →
     k < length questions
     ∧ inlineData (lit "image/jpeg") data
       ∈ App.evaluation_parts questions (Interview.completed_answers c)
           (Interview.completed_snapshots c))
  ∧ (∀ k, is_Some (Interview.completed_malpracticeLogs c !! k) →
          k < length questions).
Proof.
  intros Hne Hrun Hc.
  assert (Hinit : Invariant.keys_reached Interview.init
                  ∧ Interview.currentQuestionIndex Interview.init < length questions).
  { split; [|destruct questions; [done | cbn; lia]].
    split; [|split; [|split]]; cbn; try (intros ?; rewrite lookup_empty); try done;
      by intros [? ?]. }
  destruct (run_keeps questions _ _
              (λ s e s' c, step_keys_in_range questions s e s' c Hne)
              es _ _ _ Hinit Hrun) as [_ Hall].
  rewrite Forall_forall in Hall. destruct (Hall c Hc) as [Hsnap Hlog].
  split; [|done]. intros k l data Hk Hin.
  assert (k < length questions) by (apply Hsnap; by eexists).
  split; [done|]. apply image_parts_are_the_snapshots. split; [done|].
  by exists k, l.
Qed.

(** ** How many questions have been passed *)

Section Progress.

Variable questions : list jsstring.

Lemma run_counts_timeouts es s0 s cs :
  questions ≠ [] →
  Interview.currentQuestionIndex s0 ≤ length questions - 1 →
  Interview.run questions s0 es = Some (s, cs) →
  Interview.currentQuestionIndex s
  = Nat.min (Interview.currentQuestionIndex s0 + Invariant.timeouts es)
      (length questions - 1)
  ∧ length cs
    = Interview.currentQuestionIndex s0 + Invariant.timeouts es - (length questions - 1).
Proof.
  intros Hne. revert s0 cs. induction es as [|e es IH]; intros s0 cs H0 Hrun.
  - simplify_eq/=. lia.
  - cbn [Interview.run] in Hrun.
    destruct (Interview.step questions s0 e) as [[s1 c]|] eqn:Hstep;
      cbn [mbind option_bind] in Hrun; [|done].
    destruct (Interview.run questions s1 es) as [[s2 cs2]|] eqn:Hrun';
      cbn [mbind option_bind] in Hrun; simplify_eq.
    step_cases Hstep; cbn [Invariant.timeouts]; try (simpl (option_list _); cbn [app]).
    + rewrite <- (handleToggleRecording_index s0). apply IH; [|done].
      by rewrite handleToggleRecording_index.
    + rewrite <- (handleNextQuestion_begin_index s0). apply IH; [|done].
      by rewrite handleNextQuestion_begin_index.
    + destruct (decide (Interview.currentQuestionIndex s0 < length questions - 1))
        as [Hbelow|Hlast].
      * destruct (handleNextQuestion_resume_below questions s0 Hbelow)
          as (s' & Hs' & Hi). rewrite Hs' in Hres. simplify_eq.
        destruct (IH s1 cs2) as [IH1 IH2]; [lia|done|].
        simpl (option_list _). cbn [app]. rewrite IH1, IH2, Hi. lia.
      * destruct (handleNextQuestion_resume_last questions s0) as (s' & Hs' & Hi);
          [lia|done|]. rewrite Hs' in Hres. simplify_eq.
        destruct (IH s1 cs2) as [IH1 IH2]; [lia|done|].
        simpl (option_list _). cbn [app length]. rewrite IH1, IH2, Hi. lia.
    + assert (Hi : Interview.currentQuestionIndex (Interview.onresult results s0)
                   = Interview.currentQuestionIndex s0).
      { unfold Interview.onresult. by destruct (Interview.onresult_loop results). }
      rewrite <- Hi. apply IH; [by rewrite Hi | done].
    + assert (Hi : Interview.currentQuestionIndex (Interview.onerror error s0)
                   = Interview.currentQuestionIndex s0).
      { unfold Interview.onerror. by destruct (decide _). }
      rewrite <- Hi. apply IH; [by rewrite Hi | done].
    + assert (Hi : Interview.currentQuestionIndex
                     (Interview.run_captureSnapshot index frame s0)
                   = Interview.currentQuestionIndex s0).
      { unfold Interview.run_captureSnapshot. by destruct frame. }
      rewrite <- Hi. apply IH; [by rewrite Hi | done].
    + assert (Hi : Interview.currentQuestionIndex
                     (Interview.analyzeFrameForMalpractice_begin index frame s0)
                   = Interview.currentQuestionIndex s0).
      { unfold Interview.analyzeFrameForMalpractice_begin. by destruct frame. }
      rewrite <- Hi. apply IH; [by rewrite Hi | done].
    + by apply IH.
    + assert (Hi : Interview.currentQuestionIndex
                     (Interview.analyzeFrameForMalpractice_resume n index r s0)
                   = Interview.currentQuestionIndex s0).
      { unfold Interview.analyzeFrameForMalpractice_resume.
        destruct r as [| |result]; try done.
        by destruct (Interview.phoneDetected result || Interview.suspiciousGaze result). }
      rewrite <- Hi. apply IH; [by rewrite Hi | done].
    + change (Interview.currentQuestionIndex s0)
        with (Interview.currentQuestionIndex (Interview.alert_timeout s0)).
      by apply IH.
Qed.

End Progress.

(** The component moves to the next question once per elapsed
    [handleNextQuestion] and first calls [onInterviewComplete] at the
    [questions.length]-th one: after [n] of them the index is
    [min n (questions.length - 1)], and [onInterviewComplete] has been called
    [n - (questions.length - 1)] times, so not at all while
    [n < questions.length]. *)
Theorem completes_after_every_question (questions : list jsstring)
    (es : list Interview.Event) (s : Interview.State)
    (cs : list Interview.Completion) :
  questions ≠ [] →
  Interview.run questions Interview.init es = Some (s, cs) →
  Interview.currentQuestionIndex s
  = Nat.min (Invariant.timeouts es) (length questions - 1)
  ∧ length cs = Invariant.timeouts es - (length questions - 1)
  ∧ (Invariant.timeouts es < length questions → cs = []).
Proof.
  intros Hne Hrun.
  destruct (run_counts_timeouts questions es Interview.init s cs Hne) as [Hi Hc];
    [cbn; lia | done |].
  cbn in Hi, Hc. split; [done|]. split; [done|].
  intros Hlt. apply length_zero_iff_nil. lia.
Qed.

(** ** Intervals that no ref holds any more *)

Section Orphans.

Variable questions : list jsstring.

Lemma clear_if_set_lookup_ne ref w id :
  ref ≠ Some id →
  Interview.intervals (Interview.clear_if_set ref w) !! id
  = Interview.intervals w !! id.
Proof.
  intros Hne. destruct ref as [[|n]|]; cbn; try done.
  apply lookup_delete_ne. congruence.
Qed.

Lemma clear_if_set_next_id ref w :
  Interview.next_id (Interview.clear_if_set ref w) = Interview.next_id w.
Proof. by destruct ref as [[|n]|]. Qed.

Lemma step_orphaned id I s e s' c :
  Invariant.orphaned id I s → Interview.step questions s e = Some (s', c) →
  Invariant.orphaned id I s'.
Proof.
  intros (Hin & Hlt & Hsnap & Hmal) Hstep. step_cases Hstep.
  - unfold Invariant.orphaned, Interview.handleToggleRecording.
    destruct (Interview.isRecording s); cbn.
    + rewrite !clear_if_set_lookup_ne, !clear_if_set_next_id by done. done.
    + rewrite !lookup_insert_ne by lia. repeat split; try done; try lia.
      * intros [=]. lia.
      * intros [=]. lia.
  - unfold Invariant.orphaned, Interview.handleNextQuestion_begin.
    rewrite Hoff. by cbn.
  - unfold Interview.handleNextQuestion_resume in Hres.
    destruct (_ <? _)%Z; simplify_eq; [|done].
    unfold Invariant.orphaned, Interview.effect_cleanup. cbn.
    by rewrite !clear_if_set_lookup_ne, !clear_if_set_next_id.
  - unfold Invariant.orphaned, Interview.onresult.
    by destruct (Interview.onresult_loop results).
  - unfold Interview.onerror. by destruct (decide _).
  - unfold Interview.run_captureSnapshot. by destruct frame.
  - unfold Interview.analyzeFrameForMalpractice_begin. by destruct frame.
  - done.
  - unfold Interview.analyzeFrameForMalpractice_resume.
    destruct r as [| |result]; try done.
    by destruct (Interview.phoneDetected result || Interview.suspiciousGaze result).
  - done.
Qed.

Lemma step_ids_fresh s e s' c :
  Invariant.ids_fresh s → Interview.step questions s e = Some (s', c) →
  Invariant.ids_fresh s'.
Proof.
  intros Hfresh Hstep. step_cases Hstep.
  - unfold Invariant.ids_fresh, Interview.handleToggleRecording.
    destruct (Interview.isRecording s); cbn.
    + intros id [I HI]. rewrite !clear_if_set_next_id.
      do 2 apply clear_if_set_lookup_Some in HI. apply Hfresh. by eexists.
    + intros id. rewrite !lookup_insert_is_Some.
      intros [<-|[_ [<-|[_ Hid]]]]; [lia|lia|]. apply Hfresh in Hid. lia.
  - unfold Invariant.ids_fresh, Interview.handleNextQuestion_begin.
    rewrite Hoff. by cbn.
  - unfold Interview.handleNextQuestion_resume in Hres.
    destruct (_ <? _)%Z; simplify_eq; [|done].
    unfold Invariant.ids_fresh, Interview.effect_cleanup. cbn.
    intros id [I HI]. rewrite !clear_if_set_next_id.
    do 2 apply clear_if_set_lookup_Some in HI. apply Hfresh. by eexists.
  - unfold Invariant.ids_fresh, Interview.onresult.
    by destruct (Interview.onresult_loop results).
  - unfold Interview.onerror. by destruct (decide _).
  - unfold Interview.run_captureSnapshot. by destruct frame.
  - unfold Interview.analyzeFrameForMalpractice_begin. by destruct frame.
  - done.
  - unfold Interview.analyzeFrameForMalpractice_resume.
    destruct r as [| |result]; try done.
    by destruct (Interview.phoneDetected result || Interview.suspiciousGaze result).
  - done.
Qed.

Lemma reachable_ids_fresh s :
  Interview.reachable questions s → Invariant.ids_fresh s.
Proof.
  intros (es & cs & Hrun).
  assert (Hinit : Invariant.ids_fresh Interview.init).
  { intros id. cbn. rewrite lookup_empty. by intros [? ?]. }
  by destruct (run_keeps questions Invariant.ids_fresh (λ _, True)
                 (λ s e s' c H Hs, conj (step_ids_fresh s e s' c H Hs) (λ _ _, I))
                 es _ _ _ Hinit Hrun).
Qed.

End Orphans.

(** A recognition error followed by a new recording orphans whatever
    interval is installed: the refs now hold the new ids, so neither the
    record button, nor moving to the next question, nor any other event ever
    clears it.  It stays installed, with the callback and the question index
    it was made for, in every state the component reaches afterwards. *)
Theorem interval_left_by_an_error_stays (questions : list jsstring)
    (s s' : Interview.State) (id : nat) (I : Interview.Interval)
    (error : jsstring) (es : list Interview.Event)
    (cs : list Interview.Completion) :
  Interview.reachable questions s →
  Interview.intervals (Interview.window s) !! id = Some I →
  error ≠ lit "no-speech" →
  Interview.run questions s
    (Interview.RecognitionError error :: Interview.ToggleRecordingClick :: es)
  = Some (s', cs) →
  Interview.intervals (Interview.window s') !! id = Some I
  ∧ Interview.snapshotIntervalRef s' ≠ Some id
  ∧ Interview.malpracticeCheckIntervalRef s' ≠ Some id.
Proof.
  intros Hr Hin Herr Hrun.
  assert (Hlt : id < Interview.next_id (Interview.window s)).
  { apply (reachable_ids_fresh questions s Hr). by eexists. }
  cbn [Interview.run Interview.step] in Hrun.
  cbn [mbind option_bind] in Hrun.
  unfold Interview.onerror in Hrun. rewrite decide_False in Hrun by done.
  cbn [Interview.isProcessing Interview.isRecording] in Hrun.
  destruct (Interview.isProcessing s) eqn:Hp; [done|].
  cbn [mbind option_bind] in Hrun.
  destruct (Interview.run questions _ es) as [[s2 cs2]|] eqn:Hrun';
    cbn [mbind option_bind] in Hrun; simplify_eq.
  assert (Horph : Invariant.orphaned id I s').
  { refine (proj1 (run_keeps questions (Invariant.orphaned id I) (λ _, True)
                     (λ s e s' c H Hs, conj (step_orphaned questions id I s e s' c H Hs) (λ _ _, Logic.I))
                     es _ _ _ _ Hrun')).
    unfold Invariant.orphaned, Interview.handleToggleRecording. cbn.
    rewrite !lookup_insert_ne by lia. repeat split; try done; try lia.
    - intros [=]. lia.
    - intros [=]. lia. }
  by destruct Horph as (? & _ & ? & ?).
Qed.

(** ** Recording a question again *)

Section Rerecording.

Variable questions : list jsstring.

Lemma step_snapshots_grow k l s e s' c :
  (∃ l', Interview.snapshotsRef s !! k = Some (l ++ l')) →
  Interview.step questions s e = Some (s', c) →
  ∃ l', Interview.snapshotsRef s' !! k = Some (l ++ l').
Proof.
  intros [l' Hk] Hstep. step_cases Hstep.
  - exists l'. unfold Interview.handleToggleRecording.
    by destruct (Interview.isRecording s).
  - exists l'. unfold Interview.handleNextQuestion_begin. by rewrite Hoff.
  - exists l'. unfold Interview.handleNextQuestion_resume in Hres.
    by destruct (_ <? _)%Z; simplify_eq.
  - exists l'. unfold Interview.onresult.
    by destruct (Interview.onresult_loop results).
  - exists l'. unfold Interview.onerror. by destruct (decide _).
  - unfold Interview.run_captureSnapshot. destruct frame as [img|]; [|by exists l'].
    cbn. unfold push_at. destruct (decide (index = k)) as [->|Hne].
    + exists (l' ++ [img]). rewrite lookup_insert_eq, Hk. cbn.
      by rewrite app_assoc.
    + exists l'. by rewrite lookup_insert_ne.
  - exists l'. unfold Interview.analyzeFrameForMalpractice_begin.
    by destruct frame.
  - by exists l'.
  - exists l'. unfold Interview.analyzeFrameForMalpractice_resume.
    destruct r as [| |result]; try done.
    by destruct (Interview.phoneDetected result || Interview.suspiciousGaze result).
  - by exists l'.
Qed.

End Rerecording.

(** Starting to record a question discards the answer and the malpractice
    log stored for it and empties the transcript, but keeps the snapshots
    already taken for it; the answers and logs of the other questions are
    not touched. *)
Theorem recording_again_resets_the_question (s : Interview.State) :
  Interview.isRecording s = false →
  let s' := Interview.handleToggleRecording s in
  let index := Interview.currentQuestionIndex s in
  array_get (Interview.answersRef s') index = Some []
  ∧ Interview.malpracticeLogsRef s' !! index = Some []
  ∧ Interview.transcript s' = []
  ∧ Interview.snapshotsRef s' = Interview.snapshotsRef s
  ∧ ∀ j, j ≠ index →
         array_get (Interview.answersRef s') j = array_get (Interview.answersRef s) j
         ∧ Interview.malpracticeLogsRef s' !! j = Interview.malpracticeLogsRef s !! j.
Proof.
  intros Hoff. unfold Interview.handleToggleRecording. rewrite Hoff. cbn.
  split; [apply array_get_set|]. split; [apply lookup_insert_eq|].
  split; [done|]. split; [done|]. intros j Hj. split.
  - by apply array_get_set_ne.
  - by apply lookup_insert_ne.
Qed.

Lemma recording_again_resets_the_question_witness :
  Interview.isRecording Sample.at_last_question = false
  ∧ array_get
      (Interview.answersRef (Interview.handleToggleRecording Sample.at_last_question)) 1
    = Some []
  ∧ array_get
      (Interview.answersRef (Interview.handleToggleRecording Sample.at_last_question)) 0
    = Some [].
Proof.
  destruct (recording_again_resets_the_question Sample.at_last_question eq_refl)
    as (H1 & _ & _ & _ & H5).
  split; [reflexivity|]. split; [exact H1|].
  destruct (H5 0) as [H0 _]; [discriminate|]. exact H0.
Defined.

(** No event removes a snapshot: a list stored for a question only ever
    grows at its end, through recordings, restarts and question changes. *)
Theorem snapshots_are_never_dropped (questions : list jsstring)
    (s s' : Interview.State) (es : list Interview.Event)
    (cs : list Interview.Completion) (k : nat) (l : list jsstring) :
  Interview.run questions s es = Some (s', cs) →
  Interview.snapshotsRef s !! k = Some l →
  ∃ l', Interview.snapshotsRef s' !! k = Some (l ++ l').
Proof.
  intros Hrun Hk.
  refine (proj1 (run_keeps questions
                   (λ s, ∃ l', Interview.snapshotsRef s !! k = Some (l ++ l'))
                   (λ _, True)
                   (λ s e s' c H Hs,
                      conj (step_snapshots_grow questions k l s e s' c H Hs)
                        (λ _ _, Logic.I))
                   es _ _ _ _ Hrun)).
  exists []. by rewrite app_nil_r.
Qed.

(** ** The label of the Next button *)

(** While a question is on display and nothing is being processed, the
    second button reads ``Finish & Evaluate'' exactly when pressing it ends
    the interview, that is when [handleNextQuestion] will call
    [onInterviewComplete]; otherwise it reads ``Next Question''. *)
Theorem finish_label_means_finish (questions : list jsstring) (s : Interview.State) :
  questions ≠ [] →
  Interview.reachable questions s →
  Interview.isProcessing s = false →
  (Display.nextButtonLabel questions s = lit "Finish & Evaluate"
   ↔ ∃ s' c, Interview.handleNextQuestion_resume questions
               (Interview.handleNextQuestion_begin s) = (s', Some c))
  ∧ (Display.nextButtonLabel questions s = lit "Next Question"
     ↔ ∃ s', Interview.handleNextQuestion_resume questions
               (Interview.handleNextQuestion_begin s) = (s', None)).
Proof.
  intros Hne (es & cs & Hrun) Hp.
  assert (Hlen : 0 < length questions) by (destruct questions; [done | cbn; lia]).
  assert (Hidx : Interview.currentQuestionIndex s < length questions).
  { eapply run_index; [done| |done]. done. }
  unfold Display.nextButtonLabel, Interview.handleNextQuestion_resume.
  rewrite Hp, handleNextQuestion_begin_index.
  destruct (Z.eqb_spec (Z.of_nat (Interview.currentQuestionIndex s))
              (Z.of_nat (length questions) - 1)) as [Heq|Hneq];
    destruct (Z.ltb_spec (Z.of_nat (Interview.currentQuestionIndex s))
                (Z.of_nat (length questions) - 1)); try lia.
  - split; split; try done.
    + intros _. by eexists _, _.
    + by intros [s' [=]].
  - split; split; try done.
    + by intros (s' & c & [=]).
    + intros _. by eexists.
Qed.

(** ** The colour of the score *)

Lemma scoreClass_cases (x : Q) :
  ((80 < x)%Q ∧ Display.scoreClass x = lit "text-emerald-500")
  ∨ ((60 < x)%Q ∧ (x <= 80)%Q ∧ Display.scoreClass x = lit "text-amber-500")
  ∨ ((x <= 60)%Q ∧ Display.scoreClass x = lit "text-rose-500").
Proof.
  unfold Display.scoreClass.
  destruct (Qle_bool x 80) eqn:H80; cbn [negb].
  - apply Qle_bool_iff in H80. destruct (Qle_bool x 60) eqn:H60; cbn [negb].
    + apply Qle_bool_iff in H60. by do 2 right.
    + apply not_true_iff_false in H60. rewrite Qle_bool_iff in H60.
      apply Qnot_le_lt in H60. right. by left.
  - apply not_true_iff_false in H80. rewrite Qle_bool_iff in H80.
    apply Qnot_le_lt in H80. by left.
Qed.

(** In the report a better overall score never gets a worse colour: the
    classes rose, amber and emerald are assigned in that order as the score
    grows, emerald exactly above 80 and rose exactly up to 60. *)
Theorem better_score_never_worse_colour (a b : Q) :
  (a <= b)%Q →
  Display.class_rank (Display.scoreClass a) ≤ Display.class_rank (Display.scoreClass b)
  ∧ (Display.scoreClass b = lit "text-emerald-500" ↔ (80 < b)%Q)
  ∧ (Display.scoreClass b = lit "text-rose-500" ↔ (b <= 60)%Q).
Proof.
  intros Hab.
  destruct (scoreClass_cases a) as [[Ha ->]|[(Ha & Ha' & ->)|[Ha ->]]];
    destruct (scoreClass_cases b) as [[Hb ->]|[(Hb & Hb' & ->)|[Hb ->]]];
    (split; [first [vm_compute; lia | exfalso; lra]|]);
    (split; split; intros H; first [done | discriminate H | exfalso; lra]).
Qed.

(** ** The answer that is submitted *)

Section Trim.

Lemma trimStart_head (s : jsstring) (c : N) :
  head (trimStart s) = Some c → is_whitespace c = false.
Proof.
  induction s as [|x s IH]; [done|]. cbn [trimStart].
  destruct (is_whitespace x) eqn:Hx; [done|]. by intros [= <-].
Qed.

Lemma trimStart_fixed (s : jsstring) :
  (∀ c, head s = Some c → is_whitespace c = false) → trimStart s = s.
Proof.
  destruct s as [|x s]; [done|]. intros H. cbn [trimStart].
  by rewrite (H x eq_refl).
Qed.

Lemma trimStart_idemp (s : jsstring) : trimStart (trimStart s) = trimStart s.
Proof. apply trimStart_fixed, trimStart_head. Qed.

Lemma trimStart_suffix (s : jsstring) : ∃ p, s = p ++ trimStart s.
Proof.
  induction s as [|x s [p IH]]; [by exists []|]. cbn [trimStart].
  destruct (is_whitespace x); [|by exists []].
  exists (x :: p). cbn. by f_equal.
Qed.

(** What [trimEnd] keeps is a prefix. *)
Lemma trimEnd_prefix (s : jsstring) : ∃ p, s = trimEnd s ++ p.
Proof.
  unfold trimEnd. destruct (trimStart_suffix (rev s)) as [p Hp].
  exists (rev p). rewrite <- rev_app_distr, <- Hp. by rewrite rev_involutive.
Qed.

Lemma trimEnd_idemp (s : jsstring) : trimEnd (trimEnd s) = trimEnd s.
Proof. unfold trimEnd. by rewrite rev_involutive, trimStart_idemp. Qed.

Lemma trimEnd_snoc (s : jsstring) (w : N) :
  is_whitespace w = true → trimEnd (s ++ [w]) = trimEnd s.
Proof.
  intros Hw. unfold trimEnd. rewrite rev_app_distr. cbn [rev app trimStart].
  by rewrite Hw.
Qed.

Lemma trim_head (s : jsstring) (c : N) :
  head (trim s) = Some c → is_whitespace c = false.
Proof.
  unfold trim. intros Hc.
  destruct (trimEnd_prefix (trimStart s)) as [p Hp].
  apply (trimStart_head s). rewrite Hp.
  by destruct (trimEnd (trimStart s)).
Qed.

(** Trimming twice is trimming once. *)
Lemma trim_idemp (s : jsstring) : trim (trim s) = trim s.
Proof.
  unfold trim at 1. rewrite (trimStart_fixed (trim s)) by apply trim_head.
  unfold trim. apply trimEnd_idemp.
Qed.

Lemma trim_snoc_space (s : jsstring) : trim (trim s ++ lit " ") = trim s.
Proof.
  change (lit " ") with [32%N].
  destruct (trim s) as [|c t] eqn:Ht; [done|].
  unfold trim at 1. rewrite trimStart_fixed.
  - rewrite trimEnd_snoc by done. rewrite <- Ht. unfold trim. apply trimEnd_idemp.
  - intros c' [= <-]. apply (trim_head s). by rewrite Ht.
Qed.

End Trim.

(** What [handleNextQuestion] stores as the answer is the displayed
    transcript, trimmed: after a recognition result it is the finalized text
    together with the pending interim part, and it is the answer that
    [onresult] had stored when no interim part is pending. *)
Theorem next_submits_the_transcript
    (results : list Interview.SpeechRecognitionResult) (s : Interview.State) :
  let s1 := Interview.onresult results s in
  let s2 := Interview.handleNextQuestion_begin s1 in
  let index := Interview.currentQuestionIndex s in
  array_get (Interview.answersRef s2) index
  = Some (trim (trim (Spec.finalized results) ++ lit " "
                ++ Spec.latest_interim results))
  ∧ (Spec.latest_interim results = [] →
     array_get (Interview.answersRef s2) index
     = array_get (Interview.answersRef s1) index)
  ∧ Interview.isProcessing s2 = true.
Proof.
  cbn zeta. unfold Interview.handleNextQuestion_begin.
  cbn [Interview.answersRef Interview.isProcessing].
  assert (Hi : Interview.currentQuestionIndex (Interview.onresult results s)
               = Interview.currentQuestionIndex s).
  { unfold Interview.onresult. by destruct (Interview.onresult_loop results). }
  assert (Ht : Interview.transcript (Interview.onresult results s)
               = trim (Spec.finalized results) ++ lit " "
                 ++ Spec.latest_interim results).
  { unfold Interview.onresult. by rewrite onresult_loop_spec. }
  assert (Ha : array_get (Interview.answersRef (Interview.onresult results s))
                 (Interview.currentQuestionIndex s)
               = Some (trim (Spec.finalized results))).
  { unfold Interview.onresult. rewrite onresult_loop_spec. apply array_get_set. }
  rewrite Hi, Ht, array_get_set. split; [done|]. split; [|done].
  intros ->. by rewrite app_nil_r, trim_snoc_space, Ha.
Qed.

Lemma recorded_run :
  Interview.run Sample.questions Interview.init Recorded.events
  = Some (Recorded.finished, [Recorded.completion]).
Proof. vm_compute. reflexivity. Qed.

(** ** The revised evaluation request *)

(** In the second copy of [App.tsx] the response schema offers the
    [malpracticeReport] property exactly when some question has a non-empty
    malpractice log.  Exactly then the system instruction of the request
    quotes the logs, serialized, after ['Malpractice Logs: '] and demands
    that section; exactly when the property is not offered it says
    ['No malpractice was detected.'] there.  The seven other properties are
    always offered, in the same order, before it. *)
Theorem revised_schema_follows_the_logs (session0 : InterviewSession)
    (answers : array jsstring) (snapshots malpracticeLogs : gmap nat (list jsstring)) :
  let request :=
    Revised.handleInterviewComplete_request session0 answers snapshots malpracticeLogs in
  let offered := (Revised.properties_of (Revised.responseSchema request)).*1 in
  let always :=
    ["overallScore"; "criteria"; "strengths"; "weaknesses"; "improvements";
     "bodyLanguageAnalysis"; "verbalAnalysis"]%string in
  ((∃ k logs, malpracticeLogs !! k = Some logs ∧ logs ≠ [])
   ↔ "malpracticeReport"%string ∈ offered)
  ∧ ("malpracticeReport"%string ∈ offered
     ↔ Revised.systemInstruction request
       = Revised.instruction_before (config session0)
         ++ Spec.quoted_logs malpracticeLogs ++ Revised.instruction_after)
  ∧ ("malpracticeReport"%string ∉ offered
     ↔ Revised.systemInstruction request
       = Revised.instruction_before (config session0)
         ++ lit "No malpractice was detected." ++ Revised.instruction_after)
  ∧ offered = always ++ (if decide ("malpracticeReport"%string ∈ offered)
                         then ["malpracticeReport"%string] else []).
Proof.
  cbn zeta. rewrite <- some_log_nonempty.
  cbn [Revised.responseSchema Revised.systemInstruction
       Revised.handleInterviewComplete_request].
  unfold Revised.systemInstruction_of, Revised.malpracticeLogText, Revised.hasMalpractice.
  assert (Hdiffer : Spec.quoted_logs malpracticeLogs ++ Revised.instruction_after
                    ≠ lit "No malpractice was detected." ++ Revised.instruction_after).
  { intros H. apply (f_equal head) in H. vm_compute in H. discriminate H. }
  destruct (some _ _) eqn:Hsome.
  - assert (Hin : "malpracticeReport"%string
                  ∈ (Revised.properties_of (Revised.evaluation_schema true)).*1)
      by (cbn; set_solver).
    split; [done|]. split; [done|]. split.
    + split; [done|]. intros H. apply app_inv_head in H. by destruct Hdiffer.
    + by rewrite decide_True.
  - assert (Hout : "malpracticeReport"%string
                   ∉ (Revised.properties_of (Revised.evaluation_schema false)).*1).
    { cbn. intros H.
      repeat (apply elem_of_cons in H as [H|H]; [discriminate H|]).
      by apply elem_of_nil in H. }
    split; [done|]. split; [|split].
    + split; [done|]. intros H. apply app_inv_head in H. symmetry in H.
      by destruct Hdiffer.
    + done.
    + by rewrite decide_False.
Qed.

(** ** The properties of the component on the sample interview *)

Lemma completion_in_recorded : Recorded.completion ∈ [Recorded.completion].
Proof. apply list_elem_of_singleton. reflexivity. Qed.

Lemma sample_questions_nonempty : Sample.questions ≠ [].
Proof. discriminate. Qed.

Lemma completion_answers_every_question_witness :
  Interview.run Sample.questions Interview.init Recorded.events
  = Some (Recorded.finished, [Recorded.completion])
  ∧ Recorded.completion ∈ [Recorded.completion]
  ∧ 1 < length Sample.questions
  ∧ ∃ answer, array_get (Interview.completed_answers Recorded.completion) 1
              = Some answer.
Proof.
  assert (H1 : 1 < length Sample.questions) by (cbn; lia).
  split; [exact recorded_run|]. split; [exact completion_in_recorded|].
  split; [exact H1|].
  exact (completion_answers_every_question _ _ _ _ _ _
           recorded_run completion_in_recorded H1).
Defined.

Lemma every_snapshot_is_sent_witness :
  Sample.questions ≠ []
  ∧ Interview.run Sample.questions Interview.init Recorded.events
    = Some (Recorded.finished, [Recorded.completion])
  ∧ Recorded.completion ∈ [Recorded.completion]
  ∧ Interview.completed_snapshots Recorded.completion !! 0 = Some [Sample.frame]
  ∧ inlineData (lit "image/jpeg") Sample.frame
    ∈ App.evaluation_parts Sample.questions
        (Interview.completed_answers Recorded.completion)
        (Interview.completed_snapshots Recorded.completion).
Proof.
  assert (Hk : Interview.completed_snapshots Recorded.completion !! 0
               = Some [Sample.frame]) by reflexivity.
  assert (Hin : Sample.frame ∈ [Sample.frame])
    by (apply list_elem_of_singleton; reflexivity).
  split; [exact sample_questions_nonempty|]. split; [exact recorded_run|].
  split; [exact completion_in_recorded|]. split; [exact Hk|].
  exact (proj2 (proj1 (every_snapshot_is_sent _ _ _ _ _ sample_questions_nonempty
                         recorded_run completion_in_recorded) 0 _ _ Hk Hin)).
Defined.

Lemma completes_after_every_question_witness :
  Sample.questions ≠ []
  ∧ Interview.run Sample.questions Interview.init Recorded.events
    = Some (Recorded.finished, [Recorded.completion])
  ∧ Interview.currentQuestionIndex Recorded.finished
    = Nat.min (Invariant.timeouts Recorded.events) (length Sample.questions - 1)
  ∧ length [Recorded.completion]
    = Invariant.timeouts Recorded.events - (length Sample.questions - 1).
Proof.
  destruct (completes_after_every_question _ _ _ _ sample_questions_nonempty
              recorded_run) as (H1 & H2 & _).
  split; [exact sample_questions_nonempty|]. split; [exact recorded_run|].
  split; [exact H1 | exact H2].
Defined.

Lemma recording_reachable : Interview.reachable Sample.questions Recorded.recording.
Proof. by exists [Interview.ToggleRecordingClick], []. Qed.

Lemma after_error_run :
  Interview.run Sample.questions Recorded.recording Recorded.after_error_events
  = Some (Recorded.after_error, []).
Proof. vm_compute. reflexivity. Qed.

Lemma interval_left_by_an_error_stays_witness :
  Interview.reachable Sample.questions Recorded.recording
  ∧ Interview.intervals (Interview.window Recorded.recording) !! 1
    = Some {| Interview.callback := Interview.captureSnapshot 0;
              Interview.delay := 5000 |}
  ∧ lit "network" ≠ lit "no-speech"
  ∧ Interview.run Sample.questions Recorded.recording Recorded.after_error_events
    = Some (Recorded.after_error, [])
  ∧ Interview.intervals (Interview.window Recorded.after_error) !! 1
    = Some {| Interview.callback := Interview.captureSnapshot 0;
              Interview.delay := 5000 |}.
Proof.
  assert (Hne : lit "network" ≠ lit "no-speech")
    by (intros H; vm_compute in H; discriminate H).
  assert (Hid : Interview.intervals (Interview.window Recorded.recording) !! 1
                = Some {| Interview.callback := Interview.captureSnapshot 0;
                          Interview.delay := 5000 |}) by reflexivity.
  split; [exact recording_reachable|]. split; [exact Hid|]. split; [exact Hne|].
  split; [exact after_error_run|].
  exact (proj1 (interval_left_by_an_error_stays Sample.questions _ _ 1 _
                  (lit "network") _ _ recording_reachable Hid Hne after_error_run)).
Defined.

Lemma finished_records_again :
  Interview.run Sample.questions Recorded.finished [Interview.ToggleRecordingClick]
  = Some (Interview.handleToggleRecording Recorded.finished, []).
Proof. reflexivity. Qed.

Lemma snapshots_are_never_dropped_witness :
  Interview.run Sample.questions Recorded.finished [Interview.ToggleRecordingClick]
  = Some (Interview.handleToggleRecording Recorded.finished, [])
  ∧ Interview.snapshotsRef Recorded.finished !! 0 = Some [Sample.frame]
  ∧ ∃ l', Interview.snapshotsRef (Interview.handleToggleRecording Recorded.finished) !! 0
          = Some ([Sample.frame] ++ l').
Proof.
  assert (Hk : Interview.snapshotsRef Recorded.finished !! 0 = Some [Sample.frame])
    by reflexivity.
  split; [exact finished_records_again|]. split; [exact Hk|].
  exact (snapshots_are_never_dropped _ _ _ _ _ _ _ finished_records_again Hk).
Defined.

Lemma at_last_question_reachable :
  Interview.reachable Sample.questions Sample.at_last_question.
Proof.
  by exists [Interview.NextQuestionClick; Interview.NextQuestionTimeout], [].
Qed.

Lemma finish_label_means_finish_witness :
  Sample.questions ≠ []
  ∧ Interview.reachable Sample.questions Sample.at_last_question
  ∧ Interview.isProcessing Sample.at_last_question = false
  ∧ Display.nextButtonLabel Sample.questions Sample.at_last_question
    = lit "Finish & Evaluate"
  ∧ ∃ s' c, Interview.handleNextQuestion_resume Sample.questions
              (Interview.handleNextQuestion_begin Sample.at_last_question)
            = (s', Some c).
Proof.
  assert (Hlabel : Display.nextButtonLabel Sample.questions Sample.at_last_question
                   = lit "Finish & Evaluate") by reflexivity.
  split; [exact sample_questions_nonempty|].
  split; [exact at_last_question_reachable|]. split; [reflexivity|].
  split; [exact Hlabel|].
  exact (proj1 (proj1 (finish_label_means_finish _ _ sample_questions_nonempty
                         at_last_question_reachable eq_refl)) Hlabel).
Defined.

Lemma better_score_never_worse_colour_witness :
  (55 <= 85)%Q
  ∧ Display.class_rank (Display.scoreClass 55)
    ≤ Display.class_rank (Display.scoreClass 85).
Proof.
  assert (H : (55 <= 85)%Q) by (unfold Qle; cbn; lia).
  split; [exact H|]. exact (proj1 (better_score_never_worse_colour 55 85 H)).
Defined.

Lemma recorded_events_ok :
  forallb Interview.recognition_ok Recorded.events = true.
Proof. reflexivity. Qed.

Lemma no_capture_while_off_witness :
  forallb Interview.recognition_ok Recorded.events = true
  ∧ Interview.run Sample.questions Interview.init Recorded.events
    = Some (Recorded.finished, [Recorded.completion])
  ∧ Interview.isRecording Recorded.finished = false
  ∧ Interview.step Sample.questions Recorded.finished
      (Interview.IntervalFires 1 (Some Sample.frame))
    = None.
Proof.
  split; [exact recorded_events_ok|]. split; [exact recorded_run|].
  split; [reflexivity|].
  exact (no_capture_while_off Sample.questions _ _ _ 1 (Some Sample.frame)
           recorded_events_ok recorded_run eq_refl).
Defined.

(** ** Alerts and logs *)

Section Alerts.

Variable questions : list jsstring.

Lemma step_alert_logged s e s' c :
  Alert.logged s → Interview.step questions s e = Some (s', c) → Alert.logged s'.
Proof.
  intros Hlog Hstep. step_cases Hstep.
  - unfold Alert.logged, Interview.handleToggleRecording.
    by destruct (Interview.isRecording s).
  - unfold Alert.logged, Interview.handleNextQuestion_begin. rewrite Hoff. by cbn.
  - unfold Interview.handleNextQuestion_resume in Hres.
    by destruct (_ <? _)%Z; simplify_eq.
  - unfold Alert.logged, Interview.onresult.
    by destruct (Interview.onresult_loop results).
  - unfold Interview.onerror. by destruct (decide _).
  - unfold Interview.run_captureSnapshot. by destruct frame.
  - unfold Interview.analyzeFrameForMalpractice_begin. by destruct frame.
  - done.
  - unfold Interview.analyzeFrameForMalpractice_resume.
    destruct r as [| |result]; try done.
    destruct (Interview.phoneDetected result || Interview.suspiciousGaze result);
      [|done].
    intros reason. cbn. intros [= <-].
    exists index, (default [] (Interview.malpracticeLogsRef s !! index)).
    unfold push_at. by rewrite lookup_insert_eq.
  - by intros reason [=].
Qed.

End Alerts.

(** Whatever alert the candidate is shown is on record: in every state the
    component reaches, the displayed reason is the last entry of the
    malpractice log of some question, the log that is handed over at the
    end. *)
Theorem alert_is_logged (questions : list jsstring) (s : Interview.State)
    (reason : jsstring) :
  Interview.reachable questions s →
  Interview.malpracticeAlert s = Some reason →
  ∃ k logs, Interview.malpracticeLogsRef s !! k = Some (logs ++ [reason]).
Proof.
  intros (es & cs & Hrun).
  refine (proj1 (run_keeps questions Alert.logged (λ _, True)
                   (λ s e s' c H Hs,
                      conj (step_alert_logged questions s e s' c H Hs)
                        (λ _ _, Logic.I))
                   es _ _ _ _ Hrun) reason).
  by intros r [=].
Qed.

Lemma alerted_reachable : Interview.reachable Sample.questions Alert.alerted.
Proof. exists Alert.events, []. vm_compute. reflexivity. Qed.

Lemma alert_is_logged_witness :
  Interview.reachable Sample.questions Alert.alerted
  ∧ Interview.malpracticeAlert Alert.alerted = Some (lit "A phone is visible.")
  ∧ ∃ k logs, Interview.malpracticeLogsRef Alert.alerted !! k
              = Some (logs ++ [lit "A phone is visible."]).
Proof.
  split; [exact alerted_reachable|]. split; [reflexivity|].
  exact (alert_is_logged _ _ _ alerted_reachable eq_refl).
Defined.

(** ** A new interview *)

Section Windows.

Lemma unmount_inert i : Invariant.inert (Interview.unmount i).
Proof.
  intros id I. unfold Interview.unmount. cbn. rewrite lookup_fmap.
  destruct (Interview.intervals (Interview.effect_cleanup i) !! id); [|done].
  by intros [= <-].
Qed.

Lemma unmounting_inert old w v :
  Invariant.inert w → Invariant.inert (System.unmounting old w v).
Proof. intros Hw. destruct v, old; try done; apply unmount_inert. Qed.

Lemma step_inert σ e σ' q :
  Invariant.inert (System.window σ) → System.step σ e = Some (σ', q) →
  Invariant.inert (System.window σ').
Proof.
  intros Hw Hstep. unfold System.step in Hstep.
  destruct e as [e| |r|e|c request|r|].
  - destruct (System.child σ); by simplify_eq.
  - destruct (System.child σ); simplify_eq. by apply unmounting_inert.
  - destruct (System.pending σ) as [[config|]|]; destruct (System.child σ);
      simplify_eq; by apply unmounting_inert.
  - destruct (System.child σ) as [h| |i|]; simplify_eq.
    destruct (App.renderContent (System.app σ)) as [| |value|]; simplify_eq.
    destruct (string_array value) as [questions|];
      cbn [mbind option_bind] in Hstep; [|done].
    destruct (Interview.step questions i e) as [[i' [c|]]|];
      cbn [mbind option_bind] in Hstep; simplify_eq; [|done].
    unfold System.interview_complete in *.
    destruct (App.session (System.app σ)); simplify_eq; by apply unmounting_inert.
  - destruct (System.child σ) as [h| |i|]; simplify_eq.
    destruct (App.renderContent (System.app σ)) as [| |value|]; simplify_eq.
    destruct (string_array value); [done|].
    unfold System.untyped_complete in Hstep.
    destruct (App.session (System.app σ)); destruct value, request; simplify_eq;
      by apply unmounting_inert.
  - destruct (System.pending σ) as [[|session0 answers snapshots logs]|];
      destruct (System.child σ); simplify_eq; by apply unmounting_inert.
  - destruct (System.child σ); simplify_eq. by apply unmounting_inert.
Qed.

Lemma reachable_inert σ : System.reachable σ → Invariant.inert (System.window σ).
Proof.
  intros (es & qs & Hrun). revert Hrun.
  assert (H0 : Invariant.inert (System.window System.init)).
  { intros id I. cbn. by rewrite lookup_empty. }
  revert H0. generalize System.init. revert qs.
  induction es as [|e es IH]; intros qs σ0 H0 Hrun.
  - by simplify_eq/=.
  - cbn [System.run] in Hrun.
    destruct (System.step σ0 e) as [[σ1 q]|] eqn:Hstep;
      cbn [mbind option_bind] in Hrun; [|done].
    destruct (System.run σ1 es) as [[σ2 qs2]|] eqn:Hrun';
      cbn [mbind option_bind] in Hrun; simplify_eq.
    eapply IH; [|done]. by eapply step_inert.
Qed.

(** The questions arrive while the loading view is mounted. *)
Lemma questions_arrive_in_loading σ config :
  System.consistent σ →
  System.pending σ = Some (System.AwaitQuestions config) →
  System.child σ = System.LoadingC.
Proof.
  intros [Hchild Hpending] Hp.
  assert (Hl : App.appState (System.app σ) = LOADING) by (apply Hpending; by eexists).
  unfold App.renderContent in Hchild. rewrite Hl in Hchild.
  rewrite Hchild. by destruct (System.child σ).
Qed.

End Windows.

(** When the questions arrive and the interview starts, the Interview
    component is mounted afresh: at index 0, not recording, with no answer,
    snapshot, log or awaited check, and with both interval refs null.  The
    intervals an earlier Interview left installed in the window are still
    installed, but they are inert: when one of them fires, nothing
    changes. *)
Theorem new_interview_starts_empty (σ σ' : System.State) (r : Outcome JSON)
    (out : option Request) :
  System.reachable σ →
  System.step σ (System.QuestionsSettled r) = Some (σ', out) →
  App.appState (System.app σ') = INTERVIEW →
  ∃ i,
    System.child σ' = System.InterviewC i
    ∧ Interview.currentQuestionIndex i = 0
    ∧ Interview.transcript i = []
    ∧ Interview.isRecording i = false
    ∧ Interview.isProcessing i = false
    ∧ Interview.malpracticeAlert i = None
    ∧ Interview.answersRef i = []
    ∧ Interview.snapshotsRef i = ∅
    ∧ Interview.malpracticeLogsRef i = ∅
    ∧ Interview.pendingChecks i = []
    ∧ Interview.snapshotIntervalRef i = None
    ∧ Interview.malpracticeCheckIntervalRef i = None
    ∧ Interview.intervals (Interview.window i) = Interview.intervals (System.window σ)
    ∧ ∀ questions id frame i' c,
        Interview.step questions i (Interview.IntervalFires id frame) = Some (i', c) →
        i' = i ∧ c = None.
Proof.
  intros Hr Hstep Hst.
  destruct (reachable_guarded σ Hr) as [Hc _].
  pose proof (reachable_inert σ Hr) as Hw.
  destruct (System.pending σ) as [[config|]|] eqn:Hp;
    try (unfold System.step in Hstep; rewrite Hp in Hstep;
         by destruct (System.child σ)).
  pose proof (questions_arrive_in_loading σ config Hc Hp) as Hchild.
  rewrite (step_QuestionsSettled _ _ _ Hp) in Hstep. simplify_eq.
  cbn [System.app System.render] in Hst.
  assert (Hv : ∃ value, App.renderContent
                          (App.startInterview_resume config r (System.app σ))
                        = App.InterviewView value).
  { destruct (startInterview_resume_guarded config r (System.app σ)) as (Hi & _).
    - destruct (reachable_guarded σ Hr) as [[_ Hpending] (_ & He & _)].
      apply He. rewrite Hpending; [done | by rewrite Hp].
    - destruct (Hi Hst) as (session0 & Hs & Htruthy & _).
      exists (questions session0). unfold App.renderContent.
      by rewrite Hst, Hs, Htruthy. }
  destruct Hv as [value Hv].
  exists (Interview.mount (System.window σ)).
  unfold System.render. cbn [System.child]. rewrite Hv, Hchild. cbn [System.reconcile].
  repeat (split; [done|]).
  intros questions id frame i' c. cbn [Interview.step Interview.mount Interview.window].
  destruct (Interview.intervals (System.window σ) !! id) as [[cb ms]|] eqn:Hid; [|done].
  apply Hw in Hid. cbn in Hid. subst cb. by intros [= <- <-].
Qed.

Lemma restarting_reachable : System.reachable Scenario.restarting.
Proof.
  exists Scenario.second_start, Scenario.second_start_requests.
  vm_compute. reflexivity.
Qed.

Lemma second_interview_starts :
  System.step Scenario.restarting (System.QuestionsSettled (Parsed Sample.response))
  = Some (Scenario.second_interview, None).
Proof. vm_compute. reflexivity. Qed.

(** The snapshot interval orphaned in the first interview is still installed
    in the second. *)
Example orphan_survives_unmount :
  ∃ i, System.child Scenario.second_interview = System.InterviewC i
       ∧ Interview.intervals (Interview.window i) !! 1
         = Some {| Interview.callback := Interview.unmounted;
                   Interview.delay := 5000 |}.
Proof. eexists. split; [reflexivity|]. vm_compute. reflexivity. Qed.

Example orphan_is_inert :
  ∃ i, System.child Scenario.second_interview = System.InterviewC i
       ∧ Interview.step Sample.questions i (Interview.IntervalFires 1 (Some Sample.frame))
         = Some (i, None).
Proof. eexists. split; [reflexivity|]. vm_compute. reflexivity. Qed.

Lemma new_interview_starts_empty_witness :
  System.reachable Scenario.restarting
  ∧ System.step Scenario.restarting (System.QuestionsSettled (Parsed Sample.response))
    = Some (Scenario.second_interview, None)
  ∧ App.appState (System.app Scenario.second_interview) = INTERVIEW
  ∧ ∃ i, System.child Scenario.second_interview = System.InterviewC i
         ∧ Interview.currentQuestionIndex i = 0.
Proof.
  split; [exact restarting_reachable|]. split; [exact second_interview_starts|].
  split; [reflexivity|].
  destruct (new_interview_starts_empty _ _ _ _ restarting_reachable
              second_interview_starts eq_refl) as (i & Hi & H0 & _).
  exists i. split; [exact Hi | exact H0].
Defined.
